(** * Finite-difference beam problem: assembly, solve and analytical reference

    Shallow embedding of the notebook "Beam Problem solution in finite
    differences".  The notebook is a sequence of cells acting on the global
    names [alpha], [N], [dx], [A], [f], [u], [x_ref] and [u_ref]; here each
    cell is a function in an exception monad over numpy-like arrays, and
    [assemble] chains the cells in the order in which the notebook runs them.

    Floating-point numbers are idealised as exact rationals ([rat]); every
    coefficient the notebook writes into the matrix is a small integer and
    is therefore represented exactly in both worlds.

    The two finite-element notebooks are glue over the dolfin library; the
    plain Python they contain (the boundary marker of the membrane problem,
    the initial condition and the free energy of the Cahn-Hilliard problem)
    is embedded as well. *)

From HB Require Import structures.
From mathcomp Require Import boot order algebra.
From Stdlib Require Import Lia Ring.

Set Implicit Arguments.
Unset Strict Implicit.
Unset Printing Implicit Defensive.

Import GRing.Theory Num.Theory Order.Theory.
Local Open Scope ring_scope.

(** ** Python exceptions and the exception monad *)

Inductive exn : Type :=
  | ZeroDivisionError
  | ValueError
  | IndexError
  | LinAlgError.

Inductive result (T : Type) : Type :=
  | Ok of T
  | Raise of exn.

Arguments Raise {T} e.

Definition bind (T S : Type) (c : result T) (k : T -> result S) : result S :=
  match c with
  | Ok x => k x
  | Raise e => Raise e
  end.

Notation "x <- c ;; k" := (bind c (fun x => k))
  (at level 100, c at next level, right associativity).

(** A [for] statement whose body updates one variable. *)
Fixpoint for_each (T S : Type) (s : seq T) (body : T -> S -> result S)
    (st : S) : result S :=
  match s with
  | [::] => Ok st
  | x :: s' => st' <- body x st ;; for_each s' body st'
  end.

(** ** The fragment of Python and numpy the notebook uses *)

Module Np.

(** One- and two-dimensional float arrays. *)
Definition vector : Type := seq rat.
Definition matrix : Type := seq (seq rat).

(** [range(a, b)] *)
Definition range (a b : int) : seq int :=
  if a <= b then [seq a + k%:Z | k <- iota 0 (absz (b - a))] else [::].

(** [x / d] on floats raises when the divisor is zero. *)
Definition truediv (x : rat) (d : int) : result rat :=
  if d == 0 then Raise ZeroDivisionError else Ok (x / d%:Q).

(** [np.zeros(n)] and [np.zeros((n, m))] reject negative dimensions. *)
Definition zeros (n : int) : result vector :=
  if n < 0 then Raise ValueError else Ok (nseq (absz n) 0).

Definition zeros2 (n m : int) : result matrix :=
  if (n < 0) || (m < 0) then Raise ValueError
  else Ok (nseq (absz n) (nseq (absz m) 0)).

(** An integer index into an axis of length [len]: a negative index counts
    from the end, anything outside [-len, len) is an [IndexError]. *)
Definition index_of (len : nat) (i : int) : result nat :=
  let i' := if i < 0 then i + len%:Z else i in
  if (0 <= i') && (i' < len%:Z) then Ok (absz i') else Raise IndexError.

(** A slice bound is wrapped once and then clipped to [0, len]. *)
Definition slice_bound (len : nat) (k : int) : nat :=
  let k' := if k < 0 then k + len%:Z else k in
  if k' < 0 then 0%N else minn (absz k') len.

(** [v[i]] *)
Definition getitem (v : vector) (i : int) : result rat :=
  k <- index_of (size v) i ;;
  Ok (nth 0 v k).

(** [v[i] = x] *)
Definition setitem (v : vector) (i : int) (x : rat) : result vector :=
  k <- index_of (size v) i ;;
  Ok (set_nth 0 v k x).

(** [A[i, j] = x] *)
Definition setitem2 (A : matrix) (i j : int) (x : rat) : result matrix :=
  r <- index_of (size A) i ;;
  row <- setitem (nth [::] A r) j x ;;
  Ok (set_nth [::] A r row).

(** [v[lo:hi] = vals]: the values must have the length of the slice, or
    length one (they are then broadcast). *)
Definition setslice (v : vector) (lo hi : int) (vals : seq rat)
    : result vector :=
  let a := slice_bound (size v) lo in
  let b := slice_bound (size v) hi in
  let n := (b - a)%N in
  if size vals == n then Ok (take a v ++ vals ++ drop (a + n) v)
  else if size vals == 1%N
       then Ok (take a v ++ nseq n (head 0 vals) ++ drop (a + n) v)
  else Raise ValueError.

(** [A[i, lo:hi] = vals] *)
Definition setslice2 (A : matrix) (i lo hi : int) (vals : seq rat)
    : result matrix :=
  r <- index_of (size A) i ;;
  row <- setslice (nth [::] A r) lo hi vals ;;
  Ok (set_nth [::] A r row).

(** [np.linspace(start, stop, num)] with the default [endpoint=True]:
    the sample indices are scaled by the step and shifted by [start], and
    the last sample is then overwritten with [stop]. *)
Definition linspace (start stop : rat) (num : int) : result vector :=
  if num < 0 then Raise ValueError
  else
    let div := num - 1 in
    let delta := stop - start in
    let y := [seq k%:R | k <- iota 0 (absz num)] in
    let y := if 0 < div then
               let step := delta / div%:Q in
               if step == 0 then [seq k / div%:Q * delta | k <- y]
               else [seq k * step | k <- y]
             else [seq k * delta | k <- y] in
    let y := [seq v + start | v <- y] in
    Ok (if 1 < num then set_nth 0 y (absz num).-1 stop else y).

End Np.

(** ** The cells of the notebook *)

(** Simulation parameters: [dx = 1.0/(N-1)]. *)
Definition spacing (N : int) : result rat := Np.truediv 1 (N - 1).

(** Interior equations: the five-point stencil on rows [2 .. N-3]. *)
Definition interior_stencil (N : int) (A : Np.matrix) : result Np.matrix :=
  for_each (Np.range 2 (N - 2)) (fun i A =>
    A <- Np.setitem2 A i (i - 2) 1 ;;
    A <- Np.setitem2 A i (i - 1) (- 4) ;;
    A <- Np.setitem2 A i i 6 ;;
    A <- Np.setitem2 A i (i + 1) (- 4) ;;
    Np.setitem2 A i (i + 2) 1) A.

(** Interior right-hand side: [f[i] = -alpha*dx**4]. *)
Definition interior_load (N : int) (alpha dx : rat) (f : Np.vector)
    : result Np.vector :=
  for_each (Np.range 2 (N - 2)) (fun i f =>
    Np.setitem f i (- alpha * dx ^+ 4)) f.

(** Boundary conditions: four rows of [A] and four entries of [f]. *)
Definition boundary_conditions (N : int) (A : Np.matrix) (f : Np.vector)
    : result (Np.matrix * Np.vector) :=
  A <- Np.setitem2 A 0 0 1 ;;
  f <- Np.setitem f 0 0 ;;
  A <- Np.setslice2 A 1 0 2 [:: 1; - 1] ;;
  f <- Np.setitem f 1 0 ;;
  A <- Np.setslice2 A (N - 2) (N - 3) N [:: 1; - 2; 1] ;;
  f <- Np.setitem f (N - 2) 0 ;;
  A <- Np.setslice2 A (N - 1) (N - 4) N [:: - 1; 3; - 3; 1] ;;
  f <- Np.setitem f (N - 1) 0 ;;
  Ok (A, f).

(** The cells up to and including the boundary conditions, in notebook
    order, as a function of the two parameters. *)
Definition assemble (N : int) (alpha : rat)
    : result (Np.matrix * Np.vector) :=
  dx <- spacing N ;;
  A <- Np.zeros2 N N ;;
  f <- Np.zeros N ;;
  A <- interior_stencil N A ;;
  f <- interior_load N alpha dx f ;;
  boundary_conditions N A f.

(** Analytical solution: [x_ref] and [u_ref], paired up sample by sample.
    The notebook fixes the number of samples to 30. *)
Definition u_exact (alpha x : rat) : rat :=
  - alpha * x ^+ 2 * (1 / 4 - x / 6 + x ^+ 2 / 24).

Definition reference (alpha : rat) (sampleCount : int)
    : result (seq (rat * rat)) :=
  x_ref <- Np.linspace 0 1 sampleCount ;;
  Ok (zip x_ref [seq u_exact alpha x | x <- x_ref]).

(** ** Arrays as matrices over the rationals *)

(** [A[i][j]] for indices in range. *)
Definition entry (A : Np.matrix) (i j : nat) : rat := nth 0 (nth [::] A i) j.

Definition to_mx (n : nat) (A : Np.matrix) : 'M[rat]_n :=
  \matrix_(i, j) entry A i j.

Definition to_col (n : nat) (v : Np.vector) : 'cV[rat]_n :=
  \col_i nth 0 v i.

Definition of_col (n : nat) (u : 'cV[rat]_n) : Np.vector :=
  [seq u i 0 | i <- enum 'I_n].

(** Modelled from the spec: [numpy.linalg.solve], the routine behind the
    cell [u = solve(A,f)], belongs to the numpy library and its code is not
    in the repository.  The specification describes it as a direct dense
    solve "returning the unique solution", which fails "when the matrix is
    ... singular"; numpy reports that failure, and a matrix that is not
    square, as [LinAlgError], and a right-hand side of the wrong length as
    [ValueError].  Over exact arithmetic the unique solution is the inverse
    applied to the right-hand side. *)
Definition linalg_solve (A : Np.matrix) (f : Np.vector)
    : result Np.vector :=
  let n := size A in
  if ~~ all (fun row => size row == n) A then Raise LinAlgError
  else if size f != n then Raise ValueError
  else if to_mx n A \in unitmx
       then Ok (of_col (invmx (to_mx n A) *m to_col n f))
  else Raise LinAlgError.

(** Assembly followed by the cell [u = solve(A,f)]. *)
Definition solve_beam (N : int) (alpha : rat) : result Np.vector :=
  Af <- assemble N alpha ;;
  linalg_solve Af.1 Af.2.

(** Plot solutions: the grid [x = np.linspace(0,1,N)] against which the
    solution is plotted. *)
Definition plot_grid (N : int) : result Np.vector := Np.linspace 0 1 N.

(** ** The membrane notebook: the Dirichlet boundary marker *)

(** [boundary(x)], with Python's short-circuit [or]; [DOLFIN_EPS] is a
    constant of the dolfin library and is taken as a parameter. *)
Definition boundary (DOLFIN_EPS : rat) (x : Np.vector) : result bool :=
  x0 <- Np.getitem x 0 ;;
  if x0 < DOLFIN_EPS then Ok true else
  x0 <- Np.getitem x 0 ;;
  if 1 - DOLFIN_EPS < x0 then Ok true else
  x1 <- Np.getitem x 1 ;;
  if x1 < DOLFIN_EPS then Ok true else
  x1 <- Np.getitem x 1 ;;
  Ok (1 - DOLFIN_EPS < x1).

(** ** The Cahn-Hilliard notebook: initial condition and free energy *)

(** [InitialConditions.eval(values, x)]; the draw [random.random()] is the
    argument [r].  Decimal literals are read as exact decimal fractions. *)
Definition InitialConditions_eval (r : rat) (values : Np.vector)
    : result Np.vector :=
  values <- Np.setitem values 0 (8 / 10 + 2 / 100 * (5 / 10 - r)) ;;
  Np.setitem values 1 0.

(** [InitialConditions.value_shape()] *)
Definition InitialConditions_value_shape : seq nat := [:: 2%N].

(** The chemical free energy [f = 100*c**2*(1-c)**2], pointwise. *)
Definition free_energy (c : rat) : rat := 100 * c ^+ 2 * (1 - c) ^+ 2.

(** ** Arrays given by their entries *)

Definition mkvec (n : nat) (g : nat -> rat) : Np.vector := mkseq g n.

Definition mkmat (n : nat) (E : nat -> nat -> rat) : Np.matrix :=
  mkseq (fun i => mkvec n (E i)) n.

(** ** The operator and the load as the specification words them *)

(** Coefficients [c] placed at columns [s, s+1, ...], zero elsewhere. *)
Definition window (s : nat) (c : seq rat) (j : nat) : rat :=
  if (s <= j)%N then nth 0 c (j - s) else 0.

Definition stencil5 : seq rat := [:: 1; - 4; 6; - 4; 1].

(** Row [i] of the operator: the four boundary rows, and the five-point
    stencil centred on the diagonal for every other row. *)
Definition expected_coeff (n i : nat) : nat -> rat :=
  if i == 0%N then window 0 [:: 1]
  else if i == 1%N then window 0 [:: 1; - 1]
  else if i == (n - 2)%N then window (n - 3) [:: 1; - 2; 1]
  else if i == (n - 1)%N then window (n - 4) [:: - 1; 3; - 3; 1]
  else window (i - 2) stencil5.

Definition expected_operator (n : nat) : Np.matrix :=
  mkmat n (expected_coeff n).

(** The load: [-b*h^4] at interior indices, zero at the four others. *)
Definition expected_load (n : nat) (b : rat) : Np.vector :=
  mkvec n (fun i => if (2 <= i < n - 2)%N
                    then - b * (1 / (n%:Z - 1)%:Q) ^+ 4 else 0).

(** ** Loop invariants and forward differences *)

(** The matrix after [m] iterations of the stencil loop. *)
Definition stencil_inv (n m : nat) : Np.matrix :=
  mkmat n (fun i j =>
    if (2 <= i < 2 + m)%N then window (i - 2) stencil5 j else 0).

(** The load after [m] iterations of its loop. *)
Definition load_inv (n : nat) (v : rat) (m : nat) : Np.vector :=
  mkvec n (fun i => if (2 <= i < 2 + m)%N then v else 0).

(** The forward difference of a grid function. *)
Definition fwd (x : nat -> rat) (k : nat) : rat := x k.+1 - x k.

(** ** Arithmetic helpers *)

(** Goals on [nat] written with ssrnat's boolean order, sent to [lia]. *)
Ltac nat_lia :=
  repeat match goal with
    | H : is_true (_ && _) |- _ => case/andP: H => ? ?
    | H : is_true (leq _ _) |- _ => move/ssrnat.leP in H
    | H : is_true (@eq_op _ _ _) |- _ => move/eqP in H
    | H : is_true (~~ @eq_op _ _ _) |- _ => move/eqP in H
    | H : is_true (~~ leq _ _) |- _ => rewrite -ltnNge in H
    | H : @eq_op _ _ _ = false |- _ => move/eqP in H
    | H : leq _ _ = false |- _ => move/negbT in H; rewrite -ltnNge in H
    end;
  repeat match goal with
    | H : context [addn _ _] |- _ => rewrite -plusE in H
    | H : context [subn _ _] |- _ => rewrite -minusE in H
    end;
  rewrite -?plusE -?minusE;
  match goal with
  | |- is_true (leq _ _) => apply/ssrnat.leP; lia
  | |- is_true (@eq_op _ _ _) => apply/eqP; lia
  | |- leq _ _ = false => apply/negbTE; rewrite -ltnNge; apply/ssrnat.leP; lia
  | |- leq _ _ = true => apply/ssrnat.leP; lia
  | |- @eq_op _ _ _ = false => apply/eqP; lia
  | |- @eq_op _ _ _ = true => apply/eqP; lia
  | |- _ => lia
  end.

(** Polynomial identities are proved once over an abstract ring and then
    instantiated at [rat]. *)
Section AbstractIdentities.

Variables (R : Type) (rO rI : R) (radd rmul rsub : R -> R -> R).
Variable ropp : R -> R.
Hypothesis Rth : ring_theory rO rI radd rmul rsub ropp eq.

Add Ring Rring : Rth.

Local Notation "a +' b" := (radd a b) (at level 50, left associativity).
Local Notation "a *' b" := (rmul a b) (at level 40, left associativity).
Local Notation "a -' b" := (radd a (ropp b)) (at level 50, left associativity).

Let two := rI +' rI.
Let three := rI +' two.
Let four := rI +' three.
Let six := rI +' (rI +' four).

Lemma abs_diff4 (a b c d e : R) :
  rI *' a +' (ropp four) *' b +' six *' c +' (ropp four) *' d +' rI *' e =
  ((e -' d) -' (d -' c) -' ((d -' c) -' (c -' b))) -'
  (((d -' c) -' (c -' b)) -' ((c -' b) -' (b -' a))).
Proof. rewrite /six /four /three /two; ring. Qed.

Lemma abs_diff3 (a b c d : R) :
  (ropp rI) *' a +' three *' b +' (ropp three) *' c +' rI *' d =
  ((d -' c) -' (c -' b)) -' ((c -' b) -' (b -' a)).
Proof. rewrite /three /two; ring. Qed.

Lemma abs_diff2 (a b c : R) :
  rI *' a +' (ropp two) *' b +' rI *' c = (c -' b) -' (b -' a).
Proof. rewrite /two; ring. Qed.

Lemma abs_diff1 (a b : R) : rI *' a +' (ropp rI) *' b = ropp (b -' a).
Proof. ring. Qed.

End AbstractIdentities.

Lemma rat_ring_theory :
  @ring_theory rat 0 1 +%R *%R (fun x y => x - y) -%R eq.
Proof.
split=> //.
- exact: add0r.
- exact: addrC.
- exact: addrA.
- exact: mul1r.
- exact: mulrC.
- exact: mulrA.
- exact: mulrDl.
- exact: subrr.
Qed.

Lemma ltn_succ_ne (i m : nat) : i != m -> (i < m.+1)%N = (i < m)%N.
Proof. by move=> /negbTE ne; rewrite ltnS leq_eqVlt ne. Qed.

(** ** The exception monad and loops *)

Lemma bind_ok (T S : Type) (x : T) (k : T -> result S) : bind (Ok x) k = k x.
Proof. by []. Qed.

Lemma for_each_cat (T S : Type) (s1 s2 : seq T) (body : T -> S -> result S)
    (st : S) :
  for_each (s1 ++ s2) body st =
  (st' <- for_each s1 body st ;; for_each s2 body st').
Proof.
elim: s1 st => [|x s1 IH] st //=.
by case: (body x st) => [st'|e] /=.
Qed.

(** A loop over [0 .. m-1] whose [k]-th iteration takes [inv k] to
    [inv k.+1] takes [inv 0] to [inv m]. *)
Lemma for_each_iota (T S : Type) (g : nat -> T) (body : T -> S -> result S)
    (inv : nat -> S) (m : nat) :
  (forall k, (k < m)%N -> body (g k) (inv k) = Ok (inv k.+1)) ->
  for_each [seq g k | k <- iota 0 m] body (inv 0%N) = Ok (inv m).
Proof.
elim: m => [|m IH] step //.
rewrite -[in iota _ _]addn1 iotaD map_cat for_each_cat IH /=.
  by move=> k lt; apply: step; apply: ltnW.
by rewrite add0n step.
Qed.

(** ** numpy primitives at indices that are in range *)

Lemma index_of_nat (len k : nat) :
  (k < len)%N -> Np.index_of len k%:Z = Ok k.
Proof. by move=> lt; rewrite /Np.index_of ltz_nat ltn0 lez_nat ltz_nat lt. Qed.

Lemma slice_bound_nat (len k : nat) :
  (k <= len)%N -> Np.slice_bound len k%:Z = k.
Proof.
by move=> le; rewrite /Np.slice_bound ltz_nat ltn0 /=; apply/minn_idPl.
Qed.

Lemma range_nat (a b : nat) :
  (a <= b)%N -> Np.range a%:Z b%:Z = [seq (a + k)%:Z | k <- iota 0 (b - a)].
Proof.
by move=> le; rewrite /Np.range lez_nat le subzn.
Qed.

Lemma mkseq_ext (T : Type) (g1 g2 : nat -> T) (n : nat) :
  (forall i, (i < n)%N -> g1 i = g2 i) -> mkseq g1 n = mkseq g2 n.
Proof.
move=> eq12; rewrite /mkseq; apply/eq_in_map => i.
by rewrite mem_iota add0n => /andP[_]; apply: eq12.
Qed.

Lemma mkmat_ext (n : nat) (E1 E2 : nat -> nat -> rat) :
  (forall i j, (i < n)%N -> (j < n)%N -> E1 i j = E2 i j) ->
  mkmat n E1 = mkmat n E2.
Proof.
move=> eq12; apply: mkseq_ext => i lti; apply: mkseq_ext => j ltj.
exact: eq12.
Qed.

Lemma zeros_nat (n : nat) : Np.zeros n%:Z = Ok (mkvec n (fun _ => 0)).
Proof.
rewrite /Np.zeros /= /mkvec; congr Ok.
by apply: (@eq_from_nth _ 0); rewrite size_nseq ?size_mkseq // => i lt;
   rewrite nth_nseq lt nth_mkseq.
Qed.

Lemma zeros2_nat (n : nat) :
  Np.zeros2 n%:Z n%:Z = Ok (mkmat n (fun _ _ => 0)).
Proof.
have:= zeros_nat n; rewrite /Np.zeros /Np.zeros2 /= => -[->].
congr Ok; apply: (@eq_from_nth _ [::]); rewrite size_nseq ?size_mkseq //.
by move=> i lt; rewrite nth_nseq lt nth_mkseq.
Qed.

Lemma setitem_mkvec (n : nat) (g : nat -> rat) (c : nat) (x : rat) :
  (c < n)%N ->
  Np.setitem (mkvec n g) c%:Z x =
  Ok (mkvec n (fun j => if j == c then x else g j)).
Proof.
move=> lt; rewrite /Np.setitem size_mkseq index_of_nat //=; congr Ok.
apply: (@eq_from_nth _ 0).
  by rewrite size_set_nth !size_mkseq; apply/maxn_idPr.
move=> j; rewrite size_set_nth size_mkseq (maxn_idPr lt) => ltj.
by rewrite nth_set_nth /= !nth_mkseq.
Qed.

Lemma setitem2_mkmat (n : nat) (E : nat -> nat -> rat) (r c : nat) (x : rat) :
  (r < n)%N -> (c < n)%N ->
  Np.setitem2 (mkmat n E) r%:Z c%:Z x =
  Ok (mkmat n (fun i j => if (i == r) && (j == c) then x else E i j)).
Proof.
move=> ltr ltc; rewrite /Np.setitem2 size_mkseq index_of_nat //=.
rewrite nth_mkseq // setitem_mkvec //=; congr Ok.
apply: (@eq_from_nth _ [::]).
  by rewrite size_set_nth !size_mkseq; apply/maxn_idPr.
move=> i; rewrite size_set_nth size_mkseq (maxn_idPr ltr) => lti.
rewrite nth_set_nth /= !nth_mkseq //.
by case: eqP => [->|_].
Qed.

Lemma setslice_mkvec (n : nat) (g : nat -> rat) (a b : nat) (vals : seq rat) :
  (a <= b)%N -> (b <= n)%N -> size vals = (b - a)%N ->
  Np.setslice (mkvec n g) a%:Z b%:Z vals =
  Ok (mkvec n (fun j => if (a <= j < b)%N then nth 0 vals (j - a) else g j)).
Proof.
move=> leab lebn sz; have lean := leq_trans leab lebn.
rewrite /Np.setslice size_mkseq !slice_bound_nat // sz eqxx subnKC //.
congr Ok; apply: (@eq_from_nth _ 0).
  rewrite !size_cat size_takel ?size_mkseq // size_drop sz size_mkseq.
  by nat_lia.
move=> j; rewrite !size_cat size_takel ?size_mkseq // size_drop sz size_mkseq.
move=> ltj; have {}ltj : (j < n)%N by nat_lia.
rewrite nth_cat size_takel ?size_mkseq // [RHS]nth_mkseq //.
case: (ltnP j a) => [ltja|leaj] /=.
  by rewrite nth_take // nth_mkseq.
rewrite nth_cat sz; case: (ltnP j b) => [ltjb|lebj].
  by rewrite ltn_subLR // subnKC // ltjb.
rewrite ltn_subLR // subnKC // ltnNge lebj /= nth_drop.
have -> : (b + (j - a - (b - a)) = j)%N by nat_lia.
by rewrite nth_mkseq.
Qed.

Lemma setslice2_mkmat (n : nat) (E : nat -> nat -> rat) (r a b : nat)
    (vals : seq rat) :
  (r < n)%N -> (a <= b)%N -> (b <= n)%N -> size vals = (b - a)%N ->
  Np.setslice2 (mkmat n E) r%:Z a%:Z b%:Z vals =
  Ok (mkmat n (fun i j =>
        if (i == r) && (a <= j < b)%N then nth 0 vals (j - a) else E i j)).
Proof.
move=> ltr leab lebn sz; rewrite /Np.setslice2 size_mkseq index_of_nat //=.
rewrite nth_mkseq // setslice_mkvec //=; congr Ok.
apply: (@eq_from_nth _ [::]).
  by rewrite size_set_nth !size_mkseq; apply/maxn_idPr.
move=> i; rewrite size_set_nth size_mkseq (maxn_idPr ltr) => lti.
rewrite nth_set_nth /= !nth_mkseq //.
by case: eqP => [->|_].
Qed.

(** ** Assembly for [N >= 5] *)

Lemma int2 : (2 : int) = 2%:Z. Proof. by []. Qed.
Lemma int1 : (1 : int) = 1%:Z. Proof. by []. Qed.

Lemma interior_range (n : nat) :
  (4 < n)%N ->
  Np.range 2 (n%:Z - 2) = [seq (2 + k)%:Z | k <- iota 0 (n - 4)].
Proof.
move=> n_ge5.
have le2 : (2 <= n)%N by nat_lia.
have le4 : (2 <= n - 2)%N by nat_lia.
rewrite int2 subzn // range_nat //.
by have -> : (n - 2 - 2 = n - 4)%N by nat_lia.
Qed.

Lemma interior_stencil_step (n k : nat) :
  (k < n - 4)%N ->
  (let i := (2 + k)%:Z in
   A <- Np.setitem2 (stencil_inv n k) i (i - 2) 1 ;;
   A <- Np.setitem2 A i (i - 1) (- 4) ;;
   A <- Np.setitem2 A i i 6 ;;
   A <- Np.setitem2 A i (i + 1) (- 4) ;;
   Np.setitem2 A i (i + 2) 1) = Ok (stencil_inv n k.+1).
Proof.
move=> ltk /=.
have -> : (2 + k)%:Z - 2 = k%:Z :> int by rewrite int2 subzn ?addKn.
have -> : (2 + k)%:Z - 1 = (k + 1)%:Z :> int.
  by rewrite int1 subzn //; congr Posz; nat_lia.
have -> : (2 + k)%:Z + 1 = (k + 3)%:Z :> int.
  by rewrite int1 -PoszD; congr Posz; nat_lia.
have -> : (2 + k)%:Z + 2 = (k + 4)%:Z :> int.
  by rewrite int2 -PoszD; congr Posz; nat_lia.
have lt0 : (k < n)%N by nat_lia.
have lt1 : (k + 1 < n)%N by nat_lia.
have lt2 : (2 + k < n)%N by nat_lia.
have lt3 : (k + 3 < n)%N by nat_lia.
have lt4 : (k + 4 < n)%N by nat_lia.
rewrite /stencil_inv; do 5! rewrite setitem2_mkmat //=.
congr Ok; apply: mkmat_ext => i j lti ltj.
case: (i =P (2 + k)%N) => [->|/eqP nei] /=; last first.
  by rewrite addnS ltn_succ_ne.
rewrite ltnn ltn_add2l ltnSn addKn /window.
case: (leqP k j) => [lekj|ltjk]; last first.
  have ne d : (j == k + d)%N = false by nat_lia.
  by rewrite !ne (addnC 2%N) ne -[X in j == X]addn0 ne.
rewrite -(subnKC lekj) addKn; move: (j - k)%N => d.
have -> : ((k + d)%N == k) = (d == 0%N).
  by rewrite -[X in _ == X]addn0 eqn_add2l.
rewrite (addnC 2%N) !eqn_add2l.
by case: d => [|[|[|[|[|d]]]]] //=; rewrite nth_nil.
Qed.

Lemma interior_stencil_nat (n : nat) :
  (4 < n)%N ->
  interior_stencil n%:Z (mkmat n (fun _ _ => 0)) = Ok (stencil_inv n (n - 4)).
Proof.
move=> n_ge5; rewrite /interior_stencil interior_range //.
have -> : mkmat n (fun _ _ => 0) = stencil_inv n 0.
  by apply: mkmat_ext => i j _ _; rewrite addn0; case: (leqP 2 i).
apply: (for_each_iota (g := fun k => (2 + k)%:Z)) => k ltk.
exact: interior_stencil_step.
Qed.

Lemma interior_load_nat (n : nat) (alpha dx : rat) :
  (4 < n)%N ->
  interior_load n%:Z alpha dx (mkvec n (fun _ => 0)) =
  Ok (load_inv n (- alpha * dx ^+ 4) (n - 4)).
Proof.
move=> n_ge5; rewrite /interior_load interior_range //.
set v := - alpha * dx ^+ 4.
have -> : mkvec n (fun _ => 0) = load_inv n v 0.
  by apply: mkseq_ext => i _; rewrite addn0; case: (leqP 2 i).
apply: (for_each_iota (g := fun k => (2 + k)%:Z)) => k ltk.
have lt2 : (2 + k < n)%N by nat_lia.
rewrite /load_inv setitem_mkvec //; congr Ok.
apply: mkseq_ext => i lti.
case: (i =P (2 + k)%N) => [->|/eqP nei].
  by rewrite leq_addr ltn_add2l ltnSn.
by rewrite addnS ltn_succ_ne.
Qed.

Lemma int0 : (0 : int) = 0%:Z. Proof. by []. Qed.
Lemma int3 : (3 : int) = 3%:Z. Proof. by []. Qed.
Lemma int4 : (4 : int) = 4%:Z. Proof. by []. Qed.

Lemma boundary_conditions_nat (n : nat) (v : rat) :
  (4 < n)%N ->
  boundary_conditions n%:Z (stencil_inv n (n - 4)) (load_inv n v (n - 4)) =
  Ok (expected_operator n,
      mkvec n (fun i => if (2 <= i < n - 2)%N then v else 0)).
Proof.
move=> n_ge5.
have lt0 : (0 < n)%N by nat_lia.
have lt1 : (1 < n)%N by nat_lia.
have lt2 : (n - 2 < n)%N by nat_lia.
have lt3 : (n - 1 < n)%N by nat_lia.
have le3 : (n - 3 <= n)%N by nat_lia.
have le4 : (n - 4 <= n)%N by nat_lia.
have sz3 : (3 = n - (n - 3))%N by nat_lia.
have sz4 : (4 = n - (n - 4))%N by nat_lia.
have e1 : n%:Z - 1 = (n - 1)%:Z :> int by rewrite int1 subzn //; nat_lia.
have e2 : n%:Z - 2 = (n - 2)%:Z :> int by rewrite int2 subzn //; nat_lia.
have e3 : n%:Z - 3 = (n - 3)%:Z :> int.
  by rewrite int3 subzn //; nat_lia.
have e4 : n%:Z - 4 = (n - 4)%:Z :> int.
  by rewrite int4 subzn //; nat_lia.
rewrite /boundary_conditions /stencil_inv /load_inv e1 e2 e3 e4.
rewrite (@setitem2_mkmat n _ 0 0) //= (@setitem_mkvec n _ 0) //=.
rewrite (@setslice2_mkmat n _ 1 0 2) //= (@setitem_mkvec n _ 1) //=.
rewrite setslice2_mkmat //= setitem_mkvec //=.
rewrite setslice2_mkmat //= setitem_mkvec //=.
congr (Ok (_, _)); last first.
  apply: mkseq_ext => i lti.
  have -> : (2 + (n - 4) = n - 2)%N by nat_lia.
  case: (i =P (n - 1)%N) => [->|_].
    by rewrite (_ : (n - 1 < n - 2)%N = false) ?andbF //; nat_lia.
  case: (i =P (n - 2)%N) => [->|_]; first by rewrite ltnn andbF.
  by case: i {lti} => [|[|i]].
apply: mkmat_ext => i j lti ltj; rewrite /expected_coeff.
have -> : (2 + (n - 4) = n - 2)%N by nat_lia.
have n01 : (0%N == (n - 1)%N) = false by nat_lia.
have n02 : (0%N == (n - 2)%N) = false by nat_lia.
have n11 : (1%N == (n - 1)%N) = false by nat_lia.
have n12 : (1%N == (n - 2)%N) = false by nat_lia.
have n21 : ((n - 2)%N == (n - 1)%N) = false by nat_lia.
case: (i =P 0%N) => [->|/eqP ne0].
  by rewrite n01 n02 /window /= subn0; case: j {ltj} => [|[|j]].
case: (i =P 1%N) => [->|/eqP ne1].
  by rewrite n11 n12 /window /= subn0; case: j {ltj} => [|[|[|j]]].
case: (i =P (n - 2)%N) => [->|/eqP ne2].
  by rewrite n21 /window /= ltj andbT ltnn andbF.
case: (i =P (n - 1)%N) => [->|/eqP ne3] /=.
  rewrite /window ltj andbT (_ : (n - 1 < n - 2)%N = false) ?andbF //.
  by nat_lia.
have -> // : (2 <= i < n - 2)%N.
by apply/andP; split; nat_lia.
Qed.

Lemma spacing_nat (n : nat) :
  (1 < n)%N -> spacing n%:Z = Ok (1 / (n%:Z - 1)%:Q).
Proof.
move=> lt1; have le1 : (1 <= n)%N by exact: ltnW.
by rewrite /spacing /Np.truediv int1 subzn // int0 eqz_nat subn_eq0 leqNgt lt1.
Qed.

(** For [N >= 5] the assembly runs to completion and returns the operator
    and the load of the specification. *)
Lemma assemble_nat (n : nat) (b : rat) :
  (4 < n)%N ->
  assemble n%:Z b = Ok (expected_operator n, expected_load n b).
Proof.
move=> n_ge5; have lt1 : (1 < n)%N by nat_lia.
rewrite /assemble spacing_nat // bind_ok zeros2_nat bind_ok zeros_nat bind_ok.
rewrite interior_stencil_nat // bind_ok interior_load_nat // bind_ok.
exact: boundary_conditions_nat.
Qed.

Lemma ge5_nat (N : int) : 5 <= N -> exists2 n, N = n%:Z & (4 < n)%N.
Proof.
case: N => [n|n] le5; last by [].
by exists n.
Qed.

(** ** Forward differences and the kernel of the operator *)

Lemma fwd_const (x : nat -> rat) (m : nat) :
  (forall k, (k < m)%N -> fwd x k = 0) ->
  forall k, (k <= m)%N -> x k = x 0%N.
Proof.
move=> fwd0; elim=> [|k IH] // ltk.
have /eqP := fwd0 k ltk; rewrite /fwd subr_eq0 => /eqP ->.
by apply: IH; apply: ltnW.
Qed.

Lemma fwd_zero (x : nat -> rat) (m k0 : nat) :
  (forall k, (k < m)%N -> fwd x k = 0) -> (k0 <= m)%N -> x k0 = 0 ->
  forall k, (k <= m)%N -> x k = 0.
Proof.
move=> fwd0 le0 x0 k lek.
by rewrite (fwd_const fwd0 lek) -(fwd_const fwd0 le0).
Qed.

(** A grid function that satisfies the five kinds of homogeneous equations
    of the operator vanishes at every node. *)
Lemma difference_kernel (x : nat -> rat) (n : nat) :
  (4 < n)%N ->
  x 0%N = 0 ->
  fwd x 0%N = 0 ->
  (forall k, (k + 4 < n)%N -> fwd (fwd (fwd (fwd x))) k = 0) ->
  fwd (fwd x) (n - 3)%N = 0 ->
  fwd (fwd (fwd x)) (n - 4)%N = 0 ->
  forall k, (k < n)%N -> x k = 0.
Proof.
move=> n_ge5 e0 e1 e4 e2 e3.
have z3 : forall k, (k <= n - 4)%N -> fwd (fwd (fwd x)) k = 0.
  apply: (fwd_zero (k0 := (n - 4)%N)) => // k ltk.
  by apply: e4; nat_lia.
have z2 : forall k, (k <= n - 3)%N -> fwd (fwd x) k = 0.
  apply: (fwd_zero (k0 := (n - 3)%N)) => // k ltk.
  by apply: z3; nat_lia.
have z1 : forall k, (k <= n - 2)%N -> fwd x k = 0.
  apply: (fwd_zero (k0 := 0%N)) => // k ltk.
  by apply: z2; nat_lia.
move=> k ltk; apply: (fwd_zero (m := (n - 1)%N) (k0 := 0%N)) => //.
  by move=> j ltj; apply: z1; nat_lia.
by nat_lia.
Qed.

(** The product of a banded row with a grid function. *)
Lemma window_dot (x : nat -> rat) (n s : nat) (c : seq rat) :
  (s + size c <= n)%N ->
  \sum_(0 <= j < n) window s c j * x j =
  \sum_(0 <= d < size c) nth 0 c d * x (d + s)%N.
Proof.
move=> le_n; have le_s : (s <= s + size c)%N by exact: leq_addr.
have le_sn : (s <= n)%N by exact: leq_trans le_s le_n.
have left0 : \sum_(0 <= j < s) window s c j * x j = 0.
  rewrite big_nat; apply: big1 => j /andP[_ ltj].
  by rewrite /window leqNgt ltj mul0r.
have right0 : \sum_(s + size c <= j < n) window s c j * x j = 0.
  rewrite big_nat; apply: big1 => j /andP[lej _].
  rewrite /window (leq_trans le_s lej) nth_default ?mul0r //.
  by rewrite leq_subRL // (leq_trans le_s lej).
rewrite (big_cat_nat (n := s)) //= left0 add0r.
rewrite (big_cat_nat (n := (s + size c)%N)) //= right0 addr0.
rewrite -{1}[s]add0n big_addn addKn; apply: eq_bigr => d _.
by rewrite /window leq_addl addnK.
Qed.

Lemma diff4E (x : nat -> rat) (k : nat) :
  1 * x k + (- 4) * x k.+1 + 6 * x k.+2 + (- 4) * x k.+3 + 1 * x k.+4 =
  fwd (fwd (fwd (fwd x))) k.
Proof. exact: (abs_diff4 rat_ring_theory). Qed.

Lemma diff3E (x : nat -> rat) (k : nat) :
  (- 1) * x k + 3 * x k.+1 + (- 3) * x k.+2 + 1 * x k.+3 =
  fwd (fwd (fwd x)) k.
Proof. exact: (abs_diff3 rat_ring_theory). Qed.

Lemma diff2E (x : nat -> rat) (k : nat) :
  1 * x k + (- 2) * x k.+1 + 1 * x k.+2 = fwd (fwd x) k.
Proof. exact: (abs_diff2 rat_ring_theory). Qed.

Lemma diff1E (x : nat -> rat) (k : nat) :
  1 * x k + (- 1) * x k.+1 = - fwd x k.
Proof. exact: (abs_diff1 rat_ring_theory). Qed.

Lemma entry_mkmat (n : nat) (E : nat -> nat -> rat) (i j : nat) :
  (i < n)%N -> (j < n)%N -> entry (mkmat n E) i j = E i j.
Proof. by move=> lti ltj; rewrite /entry nth_mkseq // nth_mkseq. Qed.

(** The rows of the operator applied to a grid function. *)
Lemma operator_mul_row (n : nat) (u : 'cV[rat]_n.+1) (i : nat)
    (lti : (i < n.+1)%N) :
  (to_mx n.+1 (expected_operator n.+1) *m u) (Ordinal lti) ord0 =
  \sum_(0 <= j < n.+1) expected_coeff n.+1 i j * u (inord j) 0.
Proof.
rewrite mxE big_mkord; apply: eq_bigr => j _.
by rewrite mxE entry_mkmat //= inord_val.
Qed.

Lemma operator_row_dot (n : nat) (u : 'cV[rat]_n.+1) (i : nat) :
  (i < n.+1)%N ->
  to_mx n.+1 (expected_operator n.+1) *m u = 0 ->
  \sum_(0 <= j < n.+1) expected_coeff n.+1 i j * u (inord j) 0 = 0.
Proof.
by move=> lti Au0; rewrite -(operator_mul_row u lti) Au0 mxE.
Qed.

Lemma operator_kernel (n : nat) (u : 'cV[rat]_n) :
  (4 < n)%N -> to_mx n (expected_operator n) *m u = 0 -> u = 0.
Proof.
case: n u => [//|n] u n_ge5 Au0.
pose x k := u (inord k) 0.
have rowE i : (i < n.+1)%N ->
    \sum_(0 <= j < n.+1) expected_coeff n.+1 i j * x j = 0.
  by move=> lti; apply: operator_row_dot.
have n0 : (0 == n.+1 - 2)%N = false by nat_lia.
have n1 : (0 == n.+1 - 1)%N = false by nat_lia.
have n2 : (1 == n.+1 - 2)%N = false by nat_lia.
have n3 : (1 == n.+1 - 1)%N = false by nat_lia.
have n4 : (n.+1 - 2 == n.+1 - 1)%N = false by nat_lia.
have dot s c : (s + size c <= n.+1)%N ->
    \sum_(0 <= j < n.+1) window s c j * x j =
    \sum_(0 <= d < size c) nth 0 c d * x (d + s)%N.
  exact: window_dot.
have x_zero : forall k, (k < n.+1)%N -> x k = 0.
  apply: difference_kernel => //.
  - have := rowE 0%N isT; rewrite /expected_coeff /= dot //.
    by rewrite /index_iota /= big_cons big_nil addr0 mul1r.
  - have le2 : (0 + 2 <= n.+1)%N by nat_lia.
    have lt1 : (1 < n.+1)%N by nat_lia.
    have := rowE 1%N lt1; rewrite /expected_coeff /= dot //.
    rewrite /index_iota /= !big_cons big_nil addr0 add0n add1n diff1E.
    by move/eqP; rewrite oppr_eq0 => /eqP.
  - move=> k ltk; have lt2 : (k.+2 < n.+1)%N by nat_lia.
    have ne2 : (k.+2 == n.+1 - 2)%N = false by nat_lia.
    have ne1 : (k.+2 == n.+1 - 1)%N = false by nat_lia.
    have le5 : (k + 5 <= n.+1)%N by nat_lia.
    have := rowE k.+2 lt2; rewrite /expected_coeff /= ne2 ne1 subn2 /= dot //.
    rewrite /index_iota /= !big_cons big_nil addr0 !addrA.
    by rewrite add0n add1n add2n add3n add4n diff4E.
  - have lt2 : (n.+1 - 2 < n.+1)%N by nat_lia.
    have ne0 : (n.+1 - 2 == 0)%N = false by nat_lia.
    have ne1 : (n.+1 - 2 == 1)%N = false by nat_lia.
    have le3 : (n.+1 - 3 + 3 <= n.+1)%N by nat_lia.
    have := rowE _ lt2; rewrite /expected_coeff eqxx ne0 ne1 dot //.
    rewrite /index_iota /= !big_cons big_nil addr0 !addrA.
    by rewrite add0n add1n add2n diff2E.
  - have lt1 : (n.+1 - 1 < n.+1)%N by nat_lia.
    have ne0 : (n.+1 - 1 == 0)%N = false by nat_lia.
    have ne1 : (n.+1 - 1 == 1)%N = false by nat_lia.
    have ne2 : (n.+1 - 1 == n.+1 - 2)%N = false by nat_lia.
    have le4 : (n.+1 - 4 + 4 <= n.+1)%N by nat_lia.
    have := rowE _ lt1; rewrite /expected_coeff eqxx ne0 ne1 ne2 dot //.
    rewrite /index_iota /= !big_cons big_nil addr0 !addrA.
    by rewrite add0n add1n add2n add3n diff3E.
apply/matrixP => i j; rewrite (ord1 j) [RHS]mxE.
by rewrite -(x_zero i (ltn_ord i)) /x inord_val.
Qed.

(** The operator has a trivial kernel, hence it is invertible. *)
Lemma operator_unit (n : nat) :
  (4 < n)%N -> to_mx n (expected_operator n) \in unitmx.
Proof.
move=> n_ge5; set M := to_mx n _.
rewrite -unitmx_tr -row_free_unit -kermx_eq0; apply/eqP/row_matrixP => i.
rewrite row0; set v := row i _.
have vM : v *m M^T = 0 by rewrite -row_mul mulmx_ker row0.
have Mv : M *m v^T = 0.
  by apply: trmx_inj; rewrite trmx_mul trmxK vM trmx0.
by apply: trmx_inj; rewrite (operator_kernel n_ge5 Mv) trmx0.
Qed.

Lemma size_mkmat (n : nat) (E : nat -> nat -> rat) : size (mkmat n E) = n.
Proof. exact: size_mkseq. Qed.

Lemma all_size_mkmat (n : nat) (E : nat -> nat -> rat) :
  all (fun row => size row == n) (mkmat n E).
Proof. by apply/allP => row /mapP[i _ ->]; rewrite size_mkseq. Qed.

Lemma nth_of_col (n : nat) (u : 'cV[rat]_n.+1) (k : nat) :
  (k < n.+1)%N -> nth 0 (of_col u) k = u (inord k) 0.
Proof.
move=> ltk; rewrite /of_col (nth_map ord0) ?size_enum_ord //.
by congr (u _ _); apply: val_inj; rewrite /= nth_enum_ord // inordK.
Qed.

Lemma size_of_col (n : nat) (u : 'cV[rat]_n) : size (of_col u) = n.
Proof. by rewrite /of_col size_map size_enum_ord. Qed.

(** A banded row written out as a list. *)
Lemma mkvec_window (n s : nat) (c : seq rat) :
  (s + size c <= n)%N ->
  mkvec n (window s c) = nseq s 0 ++ c ++ nseq (n - s - size c) 0.
Proof.
move=> le_n; apply: (@eq_from_nth _ 0).
  rewrite size_mkseq !size_cat !size_nseq.
  by move: (size c) le_n => m le_n; nat_lia.
move=> j; rewrite size_mkseq => ltj; rewrite nth_mkseq // /window.
rewrite nth_cat size_nseq nth_nseq; case: (ltnP j s) => [ltjs|lesj].
  by [].
rewrite nth_cat; case: (ltnP (j - s) (size c)) => // lecj.
by rewrite nth_nseq if_same nth_default.
Qed.

Lemma row_expected_operator (n i : nat) :
  (i < n)%N -> nth [::] (expected_operator n) i = mkvec n (expected_coeff n i).
Proof. by move=> lti; rewrite /expected_operator /mkmat nth_mkseq. Qed.

Lemma interior_coeff (n i : nat) :
  (4 < n)%N -> (2 <= i <= n - 3)%N ->
  expected_coeff n i = window (i - 2) stencil5.
Proof.
move=> n_ge5 /andP[le2 le3]; rewrite /expected_coeff.
have -> : (i == 0%N) = false by nat_lia.
have -> : (i == 1%N) = false by nat_lia.
have -> : (i == (n - 2)%N) = false by nat_lia.
by have -> : (i == (n - 1)%N) = false by nat_lia.
Qed.

Lemma row0_coeff (n : nat) : expected_coeff n 0 = window 0 [:: 1].
Proof. by []. Qed.

Lemma row1_coeff (n : nat) : expected_coeff n 1 = window 0 [:: 1; - 1].
Proof. by []. Qed.

Lemma rowN2_coeff (n : nat) :
  (4 < n)%N -> expected_coeff n (n - 2) = window (n - 3) [:: 1; - 2; 1].
Proof.
move=> n_ge5; rewrite /expected_coeff eqxx.
have -> : ((n - 2)%N == 0%N) = false by nat_lia.
by have -> : ((n - 2)%N == 1%N) = false by nat_lia.
Qed.

Lemma rowN1_coeff (n : nat) :
  (4 < n)%N -> expected_coeff n (n - 1) = window (n - 4) [:: - 1; 3; - 3; 1].
Proof.
move=> n_ge5; rewrite /expected_coeff eqxx.
have -> : ((n - 1)%N == 0%N) = false by nat_lia.
have -> : ((n - 1)%N == 1%N) = false by nat_lia.
by have -> : ((n - 1)%N == (n - 2)%N) = false by nat_lia.
Qed.

(** * The claims *)

(** C1: for every [N >= 5] and body force [b], [assemble N b] returns an
    [N] by [N] matrix whose interior rows [2 <= i <= N-3] are
    [1, -4, 6, -4, 1] at columns [i-2 .. i+2] and zero elsewhere (so exactly
    five entries are nonzero), whose row 0 is [1] at column 0, row 1 is
    [1, -1] at columns 0..1, row [N-2] is [1, -2, 1] at columns [N-3 .. N-1]
    and row [N-1] is [-1, 3, -3, 1] at columns [N-4 .. N-1], with zeros
    outside the listed columns. *)
Theorem C1_operator_rows (N : int) (b : rat) :
  5 <= N ->
  exists A f,
    assemble N b = Ok (A, f) /\
    size A = absz N /\ all (fun row => size row == absz N) A /\
    (forall i, (2 <= i <= absz N - 3)%N ->
       nth [::] A i =
         nseq (i - 2) 0 ++ [:: 1; - 4; 6; - 4; 1] ++ nseq (absz N - i - 3) 0 /\
       count (fun c => c != 0) (nth [::] A i) = 5%N) /\
    nth [::] A 0 = 1 :: nseq (absz N - 1) 0 /\
    nth [::] A 1 = [:: 1; - 1] ++ nseq (absz N - 2) 0 /\
    nth [::] A (absz N - 2) = nseq (absz N - 3) 0 ++ [:: 1; - 2; 1] /\
    nth [::] A (absz N - 1) = nseq (absz N - 4) 0 ++ [:: - 1; 3; - 3; 1].
Proof.
move=> /ge5_nat[n -> n_ge5]; rewrite absz_nat.
exists (expected_operator n), (expected_load n b).
split; first exact: assemble_nat.
split; first exact: size_mkmat.
split; first exact: all_size_mkmat.
split.
  move=> i le_i; have /andP[le2 le3] := le_i.
  have lti : (i < n)%N by nat_lia.
  have le5 : (i - 2 + size stencil5 <= n)%N by rewrite /=; nat_lia.
  rewrite row_expected_operator // interior_coeff // mkvec_window //.
  have -> : (n - (i - 2) - size stencil5 = n - i - 3)%N by rewrite /=; nat_lia.
  split=> //; rewrite !count_cat !count_nseq eqxx /= !mul0n.
  by vm_compute.
have lt0 : (0 < n)%N by nat_lia.
have lt1 : (1 < n)%N by nat_lia.
have lt2 : (n - 2 < n)%N by nat_lia.
have lt3 : (n - 1 < n)%N by nat_lia.
split.
  have le1 : (0 + 1 <= n)%N by [].
  by rewrite row_expected_operator // row0_coeff mkvec_window //= subn0.
split.
  have le2 : (0 + 2 <= n)%N by [].
  by rewrite row_expected_operator // row1_coeff mkvec_window //= subn0.
split.
  have le3 : (n - 3 + 3 <= n)%N by nat_lia.
  rewrite row_expected_operator // rowN2_coeff // mkvec_window //=.
  by have -> : (n - (n - 3) - 3 = 0)%N by nat_lia.
have le4 : (n - 4 + 4 <= n)%N by nat_lia.
rewrite row_expected_operator // rowN1_coeff // mkvec_window //=.
by have -> : (n - (n - 4) - 4 = 0)%N by nat_lia.
Qed.

Lemma C1_operator_rows_witness :
  exists A f, assemble 5 1 = Ok (A, f) /\
              nth [::] A 2 = [:: 1; - 4; 6; - 4; 1].
Proof.
have [A [f [asm [_ [_ [rows _]]]]]] := @C1_operator_rows 5 1 isT.
exists A, f; split; first exact: asm.
by have [-> _] := rows 2%N isT.
Defined.

(** C2: for every [N >= 5] and body force [b], with [h = 1/(N-1)], the load
    returned by [assemble N b] is [-b*h^4] at every interior index
    [2 <= i <= N-3] and [0] at the four indices [0], [1], [N-2], [N-1]. *)
Theorem C2_load_entries (N : int) (b : rat) :
  5 <= N ->
  let h := 1 / (N - 1)%:Q in
  exists A f,
    assemble N b = Ok (A, f) /\
    size f = absz N /\
    (forall i, (2 <= i <= absz N - 3)%N -> nth 0 f i = - b * h ^+ 4) /\
    nth 0 f 0 = 0 /\ nth 0 f 1 = 0 /\
    nth 0 f (absz N - 2) = 0 /\ nth 0 f (absz N - 1) = 0.
Proof.
move=> /ge5_nat[n -> n_ge5] /=; rewrite ?absz_nat.
exists (expected_operator n), (expected_load n b).
split; first exact: assemble_nat.
split; first exact: size_mkseq.
have lt0 : (0 < n)%N by nat_lia.
have lt1 : (1 < n)%N by nat_lia.
have lt2 : (n - 2 < n)%N by nat_lia.
have lt3 : (n - 1 < n)%N by nat_lia.
have out2 : (n - 2 < n - 2)%N = false by rewrite ltnn.
have out1 : (n - 1 < n - 2)%N = false by nat_lia.
rewrite /expected_load /mkvec !nth_mkseq //= out2 out1 !andbF.
split=> // i le_i; have /andP[le2 le3] := le_i.
have lti : (i < n)%N by nat_lia.
have int_i : (2 <= i < n - 2)%N by apply/andP; split; nat_lia.
by rewrite nth_mkseq // int_i.
Qed.

Lemma C2_load_entries_witness :
  exists A f, assemble 5 1 = Ok (A, f) /\
              nth 0 f 2 = - 1 * (1 / (5 - 1)%:Q) ^+ 4.
Proof.
have [A [f [asm [_ [loads _]]]]] := @C2_load_entries 5 1 isT.
exists A, f; split; first exact: asm.
exact: (loads 2%N isT).
Defined.

(** C9: for every [N >= 5] and body forces [b1], [b2], the two assemblies
    return the same matrix, in particular the same boundary rows
    [0], [1], [N-2], [N-1], and the same load at those four indices; the
    loads can differ only at interior indices [2 <= i <= N-3]. *)
Theorem C9_boundary_invariant (N : int) (b1 b2 : rat) :
  5 <= N ->
  exists A1 f1 A2 f2,
    assemble N b1 = Ok (A1, f1) /\ assemble N b2 = Ok (A2, f2) /\
    (forall r, r \in [:: 0; 1; absz N - 2; absz N - 1]%N ->
       nth [::] A1 r = nth [::] A2 r /\ nth 0 f1 r = nth 0 f2 r) /\
    A1 = A2 /\
    (forall i, nth 0 f1 i != nth 0 f2 i -> (2 <= i <= absz N - 3)%N).
Proof.
move=> /ge5_nat[n -> n_ge5]; rewrite absz_nat.
exists (expected_operator n), (expected_load n b1).
exists (expected_operator n), (expected_load n b2).
split; first exact: assemble_nat.
split; first exact: assemble_nat.
have load_out b i : ~~ (2 <= i <= n - 3)%N -> nth 0 (expected_load n b) i = 0.
  move=> out; case: (ltnP i n) => [lti|lei]; last first.
    by rewrite nth_default // size_mkseq.
  rewrite nth_mkseq //; case: ifP => // /andP[le2 lt2].
  by case/negP: out; apply/andP; split=> //; nat_lia.
split; last split=> //.
  move=> r; rewrite !inE => r_bdry; split=> //.
  by rewrite !load_out //; case/or4P: r_bdry => /eqP ->;
     apply/negP => /andP[le2 le3]; nat_lia.
move=> i; apply: contraNT => out.
by rewrite !load_out.
Qed.

Lemma C9_boundary_invariant_witness :
  exists A1 f1 A2 f2,
    assemble 5 1 = Ok (A1, f1) /\ assemble 5 2 = Ok (A2, f2) /\ A1 = A2.
Proof.
have [A1 [f1 [A2 [f2 [asm1 [asm2 [_ [eqA _]]]]]]]] :=
  @C9_boundary_invariant 5 1 2 isT.
by exists A1, f1, A2, f2; split; [exact: asm1|split; [exact: asm2|exact: eqA]].
Defined.

(** The coefficients of a row sum to one in row 0 and to zero elsewhere. *)
Lemma coeff_sum (n i : nat) :
  (4 < n)%N -> (i < n)%N ->
  \sum_(0 <= j < n) expected_coeff n i j * 1 = if i == 0%N then 1 else 0.
Proof.
move=> n_ge5 lti.
have dot s c : (s + size c <= n)%N ->
    \sum_(0 <= j < n) window s c j * 1 =
    \sum_(0 <= d < size c) nth 0 c d * 1.
  exact: (@window_dot (fun=> 1)).
have le1 : (0 + 1 <= n)%N by nat_lia.
have le2 : (0 + 2 <= n)%N by nat_lia.
have le3 : (n - 3 + 3 <= n)%N by nat_lia.
have le4 : (n - 4 + 4 <= n)%N by nat_lia.
case: (i =P 0%N) => [->|/eqP ne0].
  rewrite row0_coeff dot // /index_iota /= !big_cons big_nil.
  by apply/eqP; vm_compute.
case: (i =P 1%N) => [->|/eqP ne1].
  rewrite row1_coeff dot // /index_iota /= !big_cons big_nil.
  by apply/eqP; vm_compute.
case: (i =P (n - 2)%N) => [->|/eqP ne2].
  rewrite rowN2_coeff // dot // /index_iota /= !big_cons big_nil.
  by apply/eqP; vm_compute.
case: (i =P (n - 1)%N) => [->|/eqP ne3].
  rewrite rowN1_coeff // dot // /index_iota /= !big_cons big_nil.
  by apply/eqP; vm_compute.
have int_i : (2 <= i <= n - 3)%N by apply/andP; split; nat_lia.
have le5 : (i - 2 + 5 <= n)%N by nat_lia.
rewrite interior_coeff // dot // /index_iota /= !big_cons big_nil.
by apply/eqP; vm_compute.
Qed.

(** C10: for every [N >= 5] and body force [b], the assembled matrix
    applied to the all-ones vector is the first standard basis vector:
    the coefficients of row 0 sum to one and those of every other row sum
    to zero. *)
Theorem C10_ones_to_e0 (N : int) (b : rat) :
  5 <= N ->
  exists A f,
    assemble N b = Ok (A, f) /\
    to_mx (absz N) A *m const_mx 1 =
      \col_i (if (i : nat) == 0%N then 1 else 0) /\
    [seq \sum_(c <- row) c | row <- A] = 1 :: nseq (absz N - 1) 0.
Proof.
move=> /ge5_nat[n -> n_ge5]; rewrite absz_nat.
exists (expected_operator n), (expected_load n b).
split; first exact: assemble_nat.
split.
  case: n n_ge5 => [//|n] n_ge5; apply/matrixP => -[i lti] j.
  rewrite (ord1 j) operator_mul_row [RHS]mxE /= -(@coeff_sum n.+1 i) //.
  by apply: eq_bigr => k _; rewrite mxE.
apply: (@eq_from_nth _ 0).
  by rewrite size_map size_mkmat /= size_nseq; nat_lia.
move=> i; rewrite size_map size_mkmat => lti.
rewrite (nth_map [::]) ?size_mkmat // row_expected_operator //.
rewrite /mkvec /mkseq big_map.
have -> : \sum_(j <- iota 0 n) expected_coeff n i j =
          \sum_(0 <= j < n) expected_coeff n i j * 1.
  by rewrite /index_iota subn0; apply: eq_bigr => j _; rewrite mulr1.
rewrite (@coeff_sum n i) //; case: i lti => [|i] lti //=.
by rewrite nth_nseq if_same.
Qed.

Lemma C10_ones_to_e0_witness :
  exists A f, assemble 5 1 = Ok (A, f) /\
              [seq \sum_(c <- row) c | row <- A] = [:: 1; 0; 0; 0; 0].
Proof.
have [A [f [asm [_ sums]]]] := @C10_ones_to_e0 5 1 isT.
by exists A, f; split; [exact: asm|exact: sums].
Defined.

(** C3: for every [N >= 5] and body force [b], the matrix returned by
    [assemble N b] has a nonzero determinant, so that the linear system
    with the assembled load has exactly one solution. *)
Theorem C3_operator_nonsingular (N : int) (b : rat) :
  5 <= N ->
  exists A f,
    assemble N b = Ok (A, f) /\
    \det (to_mx (absz N) A) != 0 /\
    exists u : 'cV[rat]_(absz N),
      to_mx (absz N) A *m u = to_col (absz N) f /\
      forall u', to_mx (absz N) A *m u' = to_col (absz N) f -> u' = u.
Proof.
move=> /ge5_nat[n -> n_ge5]; rewrite absz_nat.
exists (expected_operator n), (expected_load n b).
split; first exact: assemble_nat.
have unitM := operator_unit n_ge5.
split; first by rewrite -unitfE -unitmxE.
exists (invmx (to_mx n (expected_operator n)) *m to_col n (expected_load n b)).
split; first by rewrite mulKVmx.
by move=> u' <-; rewrite mulKmx.
Qed.

Lemma C3_operator_nonsingular_witness :
  exists A f, assemble 5 1 = Ok (A, f) /\ \det (to_mx 5 A) != 0.
Proof.
have [A [f [asm [det_ne0 _]]]] := @C3_operator_nonsingular 5 1 isT.
by exists A, f; split; [exact: asm|exact: det_ne0].
Defined.

(** For [N >= 5] the solve succeeds and returns the inverse of the operator
    applied to the load. *)
Lemma solve_beam_nat (n : nat) (b : rat) :
  (4 < n)%N ->
  solve_beam n%:Z b =
  Ok (of_col (invmx (to_mx n (expected_operator n)) *m
              to_col n (expected_load n b))).
Proof.
move=> n_ge5; rewrite /solve_beam assemble_nat // bind_ok /linalg_solve /=.
by rewrite size_mkmat all_size_mkmat size_mkseq eqxx operator_unit.
Qed.

(** The first two equations of the system. *)
Lemma operator_rows01 (n : nat) (u : 'cV[rat]_n.+1) :
  (4 < n.+1)%N ->
  let y := to_mx n.+1 (expected_operator n.+1) *m u in
  y (inord 0) 0 = u (inord 0) 0 /\
  y (inord 1) 0 = u (inord 0) 0 - u (inord 1) 0.
Proof.
move=> n_ge5 /=.
have lt0 : (0 < n.+1)%N by [].
have lt1 : (1 < n.+1)%N by nat_lia.
have le1 : (0 + 1 <= n.+1)%N by [].
have le2 : (0 + 2 <= n.+1)%N by nat_lia.
have -> : inord 0 = Ordinal lt0 by apply: val_inj; rewrite /= inordK.
have -> : inord 1 = Ordinal lt1 by apply: val_inj; rewrite /= inordK.
pose x k := u (inord k) 0.
have dot s c : (s + size c <= n.+1)%N ->
    \sum_(0 <= j < n.+1) window s c j * u (inord j) 0 =
    \sum_(0 <= d < size c) nth 0 c d * x (d + s)%N.
  exact: (@window_dot x).
rewrite !operator_mul_row row0_coeff row1_coeff !dot //.
rewrite /index_iota /= !big_cons !big_nil !addr0 !mul1r mulN1r /x.
split; last first.
  by congr (u _ _ - u _ _); apply: val_inj; rewrite /= !inordK.
by congr (u _ _); apply: val_inj; rewrite /= !inordK.
Qed.

(** C4: for every [N >= 5] and body force [b], the solve of the assembled
    system succeeds and its solution [u] satisfies [u[0] = 0] and
    [u[1] = u[0]], exactly, over exact arithmetic. *)
Theorem C4_left_boundary_values (N : int) (b : rat) :
  5 <= N ->
  exists u,
    solve_beam N b = Ok u /\ size u = absz N /\
    nth 0 u 0 = 0 /\ nth 0 u 1 = nth 0 u 0.
Proof.
move=> /ge5_nat[n -> n_ge5]; rewrite absz_nat.
set M := to_mx n (expected_operator n).
set F := to_col n (expected_load n b).
exists (of_col (invmx M *m F)); split; first exact: solve_beam_nat.
split; first exact: size_of_col.
have MU : M *m (invmx M *m F) = F by rewrite mulKVmx // operator_unit.
case: n n_ge5 @M @F MU => [//|n] n_ge5 M F MU.
have lt1 : (1 < n.+1)%N by nat_lia.
have [] := operator_rows01 (invmx M *m F) n_ge5; rewrite -/M MU.
rewrite !nth_of_col // !mxE !inordK // !nth_mkseq //= => <- /eqP.
by rewrite eq_sym subr_eq0 => /eqP <-.
Qed.

Lemma C4_left_boundary_values_witness :
  exists u, solve_beam 5 1 = Ok u /\ nth 0 u 0 = 0.
Proof.
have [u [slv [_ [u0 _]]]] := @C4_left_boundary_values 5 1 isT.
by exists u; split; [exact: slv|exact: u0].
Defined.

(** C5: for every [N >= 5] and body force [b], the solution of the system
    assembled with body force [2*b] is exactly twice the solution of the
    system assembled with [b]. *)
Theorem C5_solution_scales (N : int) (b : rat) :
  5 <= N ->
  exists u,
    solve_beam N b = Ok u /\
    solve_beam N (2 * b) = Ok [seq 2 * c | c <- u].
Proof.
move=> /ge5_nat[n -> n_ge5].
rewrite !solve_beam_nat //.
set M := to_mx n (expected_operator n).
exists (of_col (invmx M *m to_col n (expected_load n b))); split=> //.
have -> : to_col n (expected_load n (2 * b)) =
          2 *: to_col n (expected_load n b).
  apply/matrixP => i j; rewrite !mxE !nth_mkseq //.
  by case: ifP => _; rewrite ?mulr0 // -mulrN -mulrA.
rewrite -scalemxAr /of_col -map_comp; congr Ok.
by apply: eq_map => i; rewrite /= mxE.
Qed.

Lemma C5_solution_scales_witness :
  exists u, solve_beam 5 1 = Ok u /\
            solve_beam 5 (2 * 1) = Ok [seq 2 * c | c <- u].
Proof. exact: (@C5_solution_scales 5 1 isT). Defined.

(** [np.linspace(0, 1, m)] for at least two samples. *)
Lemma linspace01_nat (m : nat) :
  (1 < m)%N ->
  Np.linspace 0 1 m%:Z = Ok (mkseq (fun k => k%:R / (m%:Z - 1)%:Q) m).
Proof.
move=> lt1; have le1 : (1 <= m)%N by exact: ltnW.
have divE : m%:Z - 1 = (m - 1)%:Z :> int by rewrite int1 subzn.
have d_natE : (m%:Z - 1)%:Q = (m - 1)%:R by rewrite divE -pmulrn.
have d_ne0 : (m%:Z - 1)%:Q != 0.
  by rewrite d_natE pnatr_eq0 -lt0n subn_gt0.
rewrite /Np.linspace ltz_nat ltn0 divE int0 int1 !ltz_nat subn_gt0 lt1 -divE.
rewrite subr0 mulf_eq0 oner_eq0 invr_eq0 (negbTE d_ne0) /=.
congr Ok; apply: (@eq_from_nth _ 0).
  by rewrite size_set_nth !size_map !size_iota prednK // maxnn.
move=> j; rewrite size_set_nth !size_map size_iota prednK // maxnn => ltj.
rewrite nth_set_nth /= nth_mkseq //.
case: eqP => [->|_].
  by rewrite d_natE subn1 divff // -subn1 -d_natE.
rewrite (nth_map 0) ?size_map ?size_iota // (nth_map 0) ?size_map ?size_iota //.
by rewrite (nth_map 0%N) ?size_iota // nth_iota // add0n addr0 mul1r.
Qed.

(** C6: for every body force [b] and [m >= 2], [reference b m] returns [m]
    pairs [(x_k, u_k)] with [x_k = k/(m-1)], so that the abscissae start at
    0, end at 1 and are uniformly spaced, and with
    [u_k = -b * x_k^2 * (1/4 - x_k/6 + x_k^2/24)]; at [x = 1] and [b = 1]
    the value is [-1/8]. *)
Theorem C6_reference_samples (b : rat) (m : int) :
  2 <= m ->
  let x k : rat := k%:R / (m - 1)%:Q in
  exists s,
    reference b m = Ok s /\ size s = absz m /\
    (forall k, (k < absz m)%N ->
       nth (0, 0) s k =
       (x k, - b * x k ^+ 2 * (1 / 4 - x k / 6 + x k ^+ 2 / 24))) /\
    x 0%N = 0 /\ x (absz m).-1 = 1 /\
    (forall k, x k.+1 - x k = 1 / (m - 1)%:Q) /\
    (b = 1 -> nth (0, 0) s (absz m).-1 = (1, - (1 / 8))).
Proof.
case: m => [m|m] // le2 x; rewrite absz_nat.
have lt1 : (1 < m)%N by [].
have le1 : (1 <= m)%N by exact: ltnW.
have d_natE : (m%:Z - 1)%:Q = (m - 1)%:R by rewrite int1 subzn // -pmulrn.
have d_ne0 : (m%:Z - 1)%:Q != 0.
  by rewrite d_natE pnatr_eq0 -lt0n subn_gt0.
have x0 : x 0%N = 0 by rewrite /x mul0r.
have x1 : x m.-1 = 1 by rewrite /x d_natE subn1 divff // -subn1 -d_natE.
set s := zip (mkseq x m) [seq u_exact b c | c <- mkseq x m].
have sz : size s = m by rewrite size_zip size_map size_mkseq minnn.
have nth_s k : (k < m)%N -> nth (0, 0) s k = (x k, u_exact b (x k)).
  move=> ltk; rewrite nth_zip ?size_map // nth_mkseq //.
  by rewrite (nth_map 0) ?size_mkseq // nth_mkseq.
exists s; split; first by rewrite /reference linspace01_nat.
do 5![split=> //].
  by move=> k; rewrite /x -mulrBl -natrB // subSnn.
have ltp : (m.-1 < m)%N by rewrite prednK.
move=> b1; rewrite nth_s // x1 b1.
by congr (_, _); apply/eqP; vm_compute.
Qed.

Lemma C6_reference_samples_witness :
  exists s, reference 1 30 = Ok s /\ nth (0, 0) s 29 = (1, - (1 / 8)).
Proof.
have [s [ref [_ [_ [_ [_ [_ last]]]]]]] := @C6_reference_samples 1 30 isT.
by exists s; split; [exact: ref|exact: last].
Defined.

(** The system that the notebook builds for [N = 4]. *)
Definition system4 : Np.matrix * Np.vector :=
  ([:: [:: 1; 0; 0; 0];
       [:: 1; - 1; 0; 0];
       [:: 0; 1; - 2; 1];
       [:: - 1; 3; - 3; 1]],
   [:: 0; 0; 0; 0]).

(** C7, refuted as stated: [N = 4] is below 5 and yet the assembly runs to
    completion and returns a 4 by 4 system; nothing is raised. *)
Lemma C7_no_error_at_four : (4 : int) < 5 /\ assemble 4 1 = Ok system4.
Proof. by []. Qed.

(** C7, amended: the notebook has no size check.  For [N = 4] the assembly
    succeeds; for every [N <= 3] it stops with the exception of the first
    statement that goes wrong: [ZeroDivisionError] for [N = 1] (the
    spacing), [IndexError] for [N = 0] (the first boundary write),
    [ValueError] for [N = 2] and [N = 3] (a boundary slice shorter than
    its coefficients) and for negative [N] (the allocation).  For
    [N = 0], [2], [3] the arrays have been allocated and both loops have
    run, without any iteration, before the failure. *)
Theorem C7_small_sizes (N : int) (b : rat) :
  N < 5 ->
  assemble N b =
    (if N == 4 then Ok system4
     else if N == 1 then Raise ZeroDivisionError
     else if N == 0 then Raise IndexError
     else Raise ValueError) /\
  (N \in [:: 0; 2; 3] ->
   exists dx A f,
     [/\ spacing N = Ok dx, Np.zeros2 N N = Ok A, Np.zeros N = Ok f,
         interior_stencil N A = Ok A & interior_load N b dx f = Ok f]).
Proof.
case: N => [[|[|[|[|[|n]]]]]|n] // _.
- split=> // _.
  by exists (1 / (0 - 1)%:Q), [::], [::]; split.
- split=> // _.
  by exists (1 / (2 - 1)%:Q), (nseq 2 (nseq 2 0)), (nseq 2 0); split.
- split=> // _.
  by exists (1 / (3 - 1)%:Q), (nseq 3 (nseq 3 0)), (nseq 3 0); split.
Qed.

Lemma C7_small_sizes_witness :
  assemble 3 1 = Raise ValueError /\ assemble 1 1 = Raise ZeroDivisionError.
Proof.
by split; [have [] := @C7_small_sizes 3 1 isT|have [] := @C7_small_sizes 1 1 isT].
Defined.

(** * Further properties of the notebooks *)

Lemma mkvec0 (n : nat) : mkvec n (fun=> 0) = nseq n 0.
Proof.
apply: (@eq_from_nth _ 0); rewrite size_mkseq ?size_nseq // => i lti.
by rewrite nth_mkseq // nth_nseq lti.
Qed.

(** X1: for [N >= 5], the cell that fills the interior rows leaves rows
    [0], [1], [N-2] and [N-1] of the zero matrix untouched, and the
    boundary cell leaves every interior row as the loop wrote it. *)
Theorem interior_then_boundary (N : int) (b : rat) :
  5 <= N ->
  exists A0 Aint A f,
    Np.zeros2 N N = Ok A0 /\ interior_stencil N A0 = Ok Aint /\
    assemble N b = Ok (A, f) /\
    (forall r, r \in [:: 0; 1; absz N - 2; absz N - 1]%N ->
       nth [::] Aint r = nseq (absz N) 0) /\
    (forall i, (2 <= i <= absz N - 3)%N -> nth [::] A i = nth [::] Aint i).
Proof.
move=> /ge5_nat[n -> n_ge5]; rewrite absz_nat.
exists (mkmat n (fun _ _ => 0)), (stencil_inv n (n - 4)).
exists (expected_operator n), (expected_load n b).
split; first exact: zeros2_nat.
split; first exact: interior_stencil_nat.
split; first exact: assemble_nat.
have e4 : (2 + (n - 4) = n - 2)%N by nat_lia.
split.
  move=> r; rewrite !inE => r_bdry.
  have ltr : (r < n)%N by case/or4P: r_bdry => /eqP ->; nat_lia.
  have out : (2 <= r < n - 2)%N = false.
    by apply/negP => /andP[le2 lt2]; case/or4P: r_bdry => /eqP r_eq; nat_lia.
  rewrite /stencil_inv /mkmat nth_mkseq // e4 -mkvec0.
  by apply: mkseq_ext => j _; rewrite out.
move=> i le_i; have /andP[le2 le3] := le_i.
have lti : (i < n)%N by nat_lia.
have int_i : (2 <= i < n - 2)%N by apply/andP; split; nat_lia.
rewrite row_expected_operator // interior_coeff //.
rewrite /stencil_inv /mkmat nth_mkseq // e4.
by apply: mkseq_ext => j _; rewrite int_i.
Qed.

Lemma interior_then_boundary_witness :
  exists Aint, interior_stencil 5 (nseq 5 (nseq 5 0)) = Ok Aint /\
               nth [::] Aint 0 = nseq 5 0.
Proof.
have [A0 [Aint [A [f [z0 [int_ok [_ [rows _]]]]]]]] :=
  @interior_then_boundary 5 1 isT.
exists Aint; split; last exact: (rows 0%N isT).
by case: z0 int_ok => <-.
Defined.

Lemma window_out (s : nat) (c : seq rat) (j : nat) :
  (j < s)%N || (s + size c <= j)%N -> window s c j = 0.
Proof.
rewrite /window; case: (leqP s j) => //= lesj lecj.
by rewrite nth_default // leq_subRL.
Qed.

(** X2: for [N >= 5], the assembled matrix is banded: an entry [A[i][j]]
    is zero as soon as [j > i + 2] or [j < i - 3]. *)
Theorem operator_banded (N : int) (b : rat) :
  5 <= N ->
  exists A f,
    assemble N b = Ok (A, f) /\
    forall i j, (i + 2 < j)%N || (j + 3 < i)%N -> entry A i j = 0.
Proof.
move=> /ge5_nat[n -> n_ge5].
exists (expected_operator n), (expected_load n b).
split; first exact: assemble_nat.
move=> i j out_band.
case: (ltnP i n) => [lti|lei]; last first.
  by rewrite /entry [nth [::] _ i]nth_default ?nth_nil // size_mkmat.
case: (ltnP j n) => [ltj|lej]; last first.
  by rewrite /entry row_expected_operator // nth_default // size_mkseq.
rewrite entry_mkmat // /expected_coeff.
case: (i =P 0%N) => [i0|/eqP ne0].
  by apply: window_out; rewrite /=; case/orP: out_band => ?; nat_lia.
case: (i =P 1%N) => [i1|/eqP ne1].
  by apply: window_out; rewrite /=; case/orP: out_band => ?; nat_lia.
case: (i =P (n - 2)%N) => [i2|/eqP ne2].
  by apply: window_out; rewrite /=; case/orP: out_band => ?;
     apply/orP; [right|left]; nat_lia.
case: (i =P (n - 1)%N) => [i3|/eqP ne3].
  by apply: window_out; rewrite /=; case/orP: out_band => ?;
     apply/orP; [right|left]; nat_lia.
by apply: window_out; rewrite /=; case/orP: out_band => ?;
   apply/orP; [right|left]; nat_lia.
Qed.

Lemma operator_banded_witness :
  exists A f, assemble 6 1 = Ok (A, f) /\ entry A 2 5 = 0.
Proof.
have [A [f [asm band]]] := @operator_banded 6 1 isT.
by exists A, f; split; [exact: asm|exact: (band 2%N 5%N isT)].
Defined.

(** X3: for [N >= 2], the plotting grid [x = np.linspace(0,1,N)] has [N]
    nodes and its [k]-th node is [k*dx] for the spacing [dx] of the
    parameter cell; for [N >= 5] the solution has as many entries as the
    grid, as [plt.plot(x,u)] needs. *)
Theorem plot_grid_spacing (N : int) :
  2 <= N ->
  exists x dx,
    plot_grid N = Ok x /\ spacing N = Ok dx /\ size x = absz N /\
    (forall k, (k < absz N)%N -> nth 0 x k = k%:R * dx) /\
    (forall b, 5 <= N -> exists u, solve_beam N b = Ok u /\ size u = size x).
Proof.
case: N => [n|n] // lt1; rewrite absz_nat.
exists (mkseq (fun k => k%:R / (n%:Z - 1)%:Q) n), (1 / (n%:Z - 1)%:Q).
split; first exact: linspace01_nat.
split; first exact: spacing_nat.
split; first exact: size_mkseq.
split; first by move=> k ltk; rewrite nth_mkseq // mul1r.
move=> b n_ge5; rewrite solve_beam_nat //.
by eexists; split; first by []; rewrite size_of_col size_mkseq.
Qed.

Lemma plot_grid_spacing_witness :
  exists x, plot_grid 5 = Ok x /\ nth 0 x 2 = 2 * (1 / (5 - 1)%:Q).
Proof.
have [x [dx [grid [[<-] [_ [nodes _]]]]]] := @plot_grid_spacing 5 isT.
by exists x; split; [exact: grid|exact: (nodes 2%N isT)].
Defined.

Section QuarticIdentity.

Variables (R : Type) (rO rI : R) (radd rmul rsub : R -> R -> R).
Variable ropp : R -> R.
Hypothesis Rth : ring_theory rO rI radd rmul rsub ropp eq.

Add Ring Rring4 : Rth.

Local Notation "a +' b" := (radd a b) (at level 50, left associativity).
Local Notation "a *' b" := (rmul a b) (at level 40, left associativity).
Local Notation "a -' b" := (radd a (ropp b)) (at level 50, left associativity).

Let two := rI +' rI.
Let three := rI +' two.
Let four := rI +' three.
Let six := rI +' (rI +' four).
Let twentyfour := four *' six.

Variables (b q s t : R).

(** The quartic of the analytical solution, with its three rational
    coefficients abstracted. *)
Let U (y : R) : R := ropp b *' (y *' y) *' (q -' y *' s +' (y *' y) *' t).

Lemma abs_quartic_diff4 (a h : R) :
  rI *' U a +' ropp four *' U (a +' rI *' h) +' six *' U (a +' two *' h) +'
  ropp four *' U (a +' three *' h) +' rI *' U (a +' four *' h) =
  ropp b *' (h *' (h *' (h *' h))) *' (twentyfour *' t).
Proof. rewrite /U /twentyfour /six /four /three /two; ring. Qed.

End QuarticIdentity.

(** The five-point stencil applied to the analytical solution gives
    [-alpha*h^4] without any truncation error. *)
Lemma u_exact_diff4 (alpha a h : rat) :
  1 * u_exact alpha a + (- 4) * u_exact alpha (a + 1 * h) +
  6 * u_exact alpha (a + 2 * h) + (- 4) * u_exact alpha (a + 3 * h) +
  1 * u_exact alpha (a + 4 * h) = - alpha * h ^+ 4.
Proof.
have c24 : (1 + (1 + (1 + 1))) * (1 + (1 + (1 + (1 + (1 + 1))))) * 24^-1
           = 1 :> rat.
  by apply/eqP; vm_compute.
rewrite -[RHS]mulr1 -[X in _ = _ * X]c24.
exact: (abs_quartic_diff4 rat_ring_theory alpha (1 / 4) 6^-1 24^-1 a h).
Qed.

(** X4: for [N >= 5], the analytical solution sampled on the plotting grid
    satisfies row 0 and every interior row [2 <= i <= N-3] of the
    assembled system exactly: the row applied to the samples equals the
    load entry.  The discretisation error sits in the three other
    boundary rows only. *)
Theorem analytic_satisfies_interior (N : int) (b : rat) :
  5 <= N ->
  exists A f x,
    assemble N b = Ok (A, f) /\ plot_grid N = Ok x /\
    forall i, (i == 0%N) || (2 <= i <= absz N - 3)%N ->
      \sum_(0 <= j < absz N) entry A i j * u_exact b (nth 0 x j) = nth 0 f i.
Proof.
move=> /ge5_nat[n -> n_ge5]; rewrite absz_nat.
have lt1 : (1 < n)%N by nat_lia.
pose h : rat := 1 / (n%:Z - 1)%:Q.
pose x := mkseq (fun k => k%:R / (n%:Z - 1)%:Q) n.
exists (expected_operator n), (expected_load n b), x.
split; first exact: assemble_nat.
split; first exact: linspace01_nat.
pose U k := u_exact b (k%:R * h).
have sumE i : (i < n)%N ->
    \sum_(0 <= j < n) entry (expected_operator n) i j * u_exact b (nth 0 x j)
    = \sum_(0 <= j < n) expected_coeff n i j * U j.
  move=> lti; apply: eq_big_nat => j /andP[_ ltj].
  by rewrite entry_mkmat // nth_mkseq // /U /h mul1r.
have dot s c : (s + size c <= n)%N ->
    \sum_(0 <= j < n) window s c j * U j =
    \sum_(0 <= d < size c) nth 0 c d * U (d + s)%N.
  exact: window_dot.
move=> i /orP[/eqP ->|int_i].
  have lt0 : (0 < n)%N by nat_lia.
  have le1 : (0 + 1 <= n)%N by [].
  rewrite sumE // row0_coeff dot // /index_iota /= big_cons big_nil.
  by rewrite nth_mkseq //= /U mul0r /u_exact expr0n /= mulr0 !mul0r mulr0 addr0.
have /andP[le2 le3] := int_i.
have lti : (i < n)%N by nat_lia.
have le5 : (i - 2 + 5 <= n)%N by nat_lia.
have in_i : (2 <= i < n - 2)%N by apply/andP; split; nat_lia.
rewrite sumE // interior_coeff // dot // nth_mkseq // in_i.
rewrite /index_iota /= !big_cons big_nil addr0 !addrA add0n /U.
have shift d : (d + (i - 2))%:R * h = (i - 2)%:R * h + d%:R * h.
  by rewrite natrD mulrDl addrC.
rewrite (shift 1%N) (shift 2%N) (shift 3%N) (shift 4%N) /stencil5 /=.
exact: u_exact_diff4.
Qed.

Lemma analytic_satisfies_interior_witness :
  exists A f x,
    assemble 5 1 = Ok (A, f) /\ plot_grid 5 = Ok x /\
    \sum_(0 <= j < 5) entry A 2 j * u_exact 1 (nth 0 x j) = nth 0 f 2.
Proof.
have [A [f [x [asm [grid rows]]]]] := @analytic_satisfies_interior 5 1 isT.
exists A, f, x; split; first exact: asm.
by split; [exact: grid|exact: (rows 2%N isT)].
Defined.

Section BracketIdentity.

Variables (R : Type) (rO rI : R) (radd rmul rsub : R -> R -> R).
Variable ropp : R -> R.
Hypothesis Rth : ring_theory rO rI radd rmul rsub ropp eq.

Add Ring RringB : Rth.

Local Notation "a +' b" := (radd a b) (at level 50, left associativity).
Local Notation "a *' b" := (rmul a b) (at level 40, left associativity).
Local Notation "a -' b" := (radd a (ropp b)) (at level 50, left associativity).

Let two := rI +' rI.
Let four := two +' two.
Let six := four +' two.

(** [6t - 4t*x + t*x^2 = ((x - 2)^2 + 2)*t] *)
Lemma abs_bracket (x t : R) :
  rI *' (six *' t) -' x *' (four *' t) +' (x *' x) *' t =
  ((x -' two) *' (x -' two) +' two) *' t.
Proof. rewrite /six /four /two; ring. Qed.

End BracketIdentity.

(** The bracket of the analytical solution is positive everywhere. *)
Lemma u_exact_bracket_ge0 (x : rat) : 0 <= 1 / 4 - x / 6 + x ^+ 2 / 24.
Proof.
have -> : 4^-1 = (1 + 1 + (1 + 1) + (1 + 1)) * 24^-1 :> rat.
  by apply/eqP; vm_compute.
have -> : 6^-1 = (1 + 1 + (1 + 1)) * 24^-1 :> rat.
  by apply/eqP; vm_compute.
rewrite (abs_bracket rat_ring_theory x 24^-1).
apply: mulr_ge0; last by rewrite invr_ge0 ler0n.
by apply: addr_ge0; [exact: mulr_ge0_le0 || rewrite -expr2 sqr_ge0|].
Qed.

Lemma u_exact_at0 (alpha : rat) : u_exact alpha 0 = 0.
Proof. by rewrite /u_exact expr0n /= mulr0 mul0r. Qed.

(** X5: the analytical solution vanishes at the clamped end, equals
    [-alpha/8] at the free end, and for a nonnegative body force it is
    nonpositive at every abscissa. *)
Theorem u_exact_shape (alpha : rat) :
  u_exact alpha 0 = 0 /\ u_exact alpha 1 = - alpha / 8 /\
  (0 <= alpha -> forall x, u_exact alpha x <= 0).
Proof.
split; first exact: u_exact_at0.
split.
  rewrite /u_exact expr1n mulr1 !mul1r.
  have -> // : 4^-1 - 6^-1 + 24^-1 = 8^-1 :> rat.
  by apply/eqP; vm_compute.
move=> alpha_ge0 x; rewrite /u_exact !mulNr oppr_le0.
apply: mulr_ge0; last exact: u_exact_bracket_ge0.
by apply: mulr_ge0 => //; rewrite sqr_ge0.
Qed.

Lemma u_exact_shape_witness : u_exact 1 (1 / 2) <= 0.
Proof. by have [_ [_ neg]] := u_exact_shape 1; apply: neg. Defined.

(** X6: with fewer than two samples the reference curve degenerates:
    a negative count is rejected by [np.linspace] with [ValueError], no
    sample gives the empty curve and one sample gives the single pair
    [(0, 0)]. *)
Theorem reference_few_samples (alpha : rat) (m : int) :
  m <= 1 ->
  reference alpha m =
    if m < 0 then Raise ValueError
    else if m == 0 then Ok [::] else Ok [:: (0, 0)].
Proof.
case: m => [[|[|m]]|m] // _.
by rewrite /reference /Np.linspace /= mul0r add0r u_exact_at0.
Qed.

Lemma reference_few_samples_witness :
  reference 1 (- 1) = Raise ValueError /\ reference 1 1 = Ok [:: (0, 0)].
Proof.
by split; [exact: (@reference_few_samples 1 (- 1) isT)
          |exact: (@reference_few_samples 1 1 isT)].
Defined.

Lemma to_col_load_linear (n : nat) (c b1 b2 : rat) :
  to_col n (expected_load n (c * b1 + b2)) =
  c *: to_col n (expected_load n b1) + to_col n (expected_load n b2).
Proof.
apply/matrixP => i j; rewrite !mxE !nth_mkseq //.
case: ifP => _; first by rewrite opprD mulrDl -mulrN mulrA.
by rewrite mulr0 addr0.
Qed.

Lemma of_col_linear (n : nat) (c : rat) (u1 u2 : 'cV[rat]_n) :
  of_col (c *: u1 + u2) =
  [seq c * p.1 + p.2 | p <- zip (of_col u1) (of_col u2)].
Proof.
rewrite /of_col zip_map -map_comp; apply: eq_map => i /=.
by rewrite !mxE.
Qed.

(** X7: over exact arithmetic and for [N >= 5], the solution depends
    linearly on the body force: the solution for [c*b1 + b2] is [c] times
    the solution for [b1] plus the solution for [b2], entry by entry, and
    a zero body force gives the zero deflection. *)
Theorem solve_beam_linear (N : int) (c b1 b2 : rat) :
  5 <= N ->
  exists u1 u2,
    solve_beam N b1 = Ok u1 /\ solve_beam N b2 = Ok u2 /\
    solve_beam N (c * b1 + b2) = Ok [seq c * p.1 + p.2 | p <- zip u1 u2] /\
    solve_beam N 0 = Ok (nseq (absz N) 0).
Proof.
move=> /ge5_nat[n -> n_ge5]; rewrite absz_nat !solve_beam_nat //.
set M := to_mx n (expected_operator n).
exists (of_col (invmx M *m to_col n (expected_load n b1))).
exists (of_col (invmx M *m to_col n (expected_load n b2))).
split=> //; split=> //; split.
  by rewrite to_col_load_linear mulmxDr -scalemxAr of_col_linear.
have -> : to_col n (expected_load n 0) = 0.
  apply/matrixP => i j; rewrite !mxE nth_mkseq //.
  by rewrite oppr0 mul0r if_same.
rewrite mulmx0; congr Ok; apply: (@eq_from_nth _ 0).
  by rewrite size_of_col size_nseq.
move=> i; rewrite size_of_col => lti.
by rewrite /of_col (nth_map (Ordinal lti)) ?size_enum_ord // mxE nth_nseq lti.
Qed.

Lemma solve_beam_linear_witness :
  exists u1 u2,
    solve_beam 5 1 = Ok u1 /\ solve_beam 5 2 = Ok u2 /\
    solve_beam 5 (3 * 1 + 2) = Ok [seq 3 * p.1 + p.2 | p <- zip u1 u2].
Proof.
have [u1 [u2 [s1 [s2 [s12 _]]]]] := @solve_beam_linear 5 3 1 2 isT.
by exists u1, u2; split; [exact: s1|split; [exact: s2|exact: s12]].
Defined.

(** The five kinds of rows of the operator, applied to a grid function,
    are the value at node 0 and forward differences of orders one to
    four. *)
Lemma operator_apply (n : nat) (u : 'cV[rat]_n.+1) :
  (4 < n.+1)%N ->
  let x k := u (inord k) 0 in
  let y k := (to_mx n.+1 (expected_operator n.+1) *m u) (inord k) 0 in
  [/\ y 0%N = x 0%N,
      y 1%N = - fwd x 0%N,
      forall k, (k + 4 < n.+1)%N -> y k.+2 = fwd (fwd (fwd (fwd x))) k,
      y (n.+1 - 2)%N = fwd (fwd x) (n.+1 - 3)%N &
      y (n.+1 - 1)%N = fwd (fwd (fwd x)) (n.+1 - 4)%N].
Proof.
move=> n_ge5 x y.
have yE i : (i < n.+1)%N ->
    y i = \sum_(0 <= j < n.+1) expected_coeff n.+1 i j * x j.
  move=> lti; rewrite /y -(operator_mul_row u lti); congr (_ _ _).
  by apply: val_inj; rewrite /= inordK.
have dot s c : (s + size c <= n.+1)%N ->
    \sum_(0 <= j < n.+1) window s c j * x j =
    \sum_(0 <= d < size c) nth 0 c d * x (d + s)%N.
  exact: window_dot.
have lt0 : (0 < n.+1)%N by [].
have lt1 : (1 < n.+1)%N by nat_lia.
have lt2 : (n.+1 - 2 < n.+1)%N by nat_lia.
have lt3 : (n.+1 - 1 < n.+1)%N by nat_lia.
have le1 : (0 + 1 <= n.+1)%N by [].
have le2 : (0 + 2 <= n.+1)%N by nat_lia.
have le3 : (n.+1 - 3 + 3 <= n.+1)%N by nat_lia.
have le4 : (n.+1 - 4 + 4 <= n.+1)%N by nat_lia.
split.
- rewrite yE // row0_coeff dot // /index_iota /= big_cons big_nil.
  by rewrite addr0 mul1r.
- rewrite yE // row1_coeff dot // /index_iota /= !big_cons big_nil.
  by rewrite addr0 add0n add1n diff1E.
- move=> k ltk; have ltk2 : (k.+2 < n.+1)%N by nat_lia.
  have int_k : (2 <= k.+2 <= n.+1 - 3)%N by apply/andP; split; nat_lia.
  have le5 : (k + 5 <= n.+1)%N by nat_lia.
  rewrite yE // interior_coeff // subn2 /= dot //.
  rewrite /index_iota /= !big_cons big_nil addr0 !addrA.
  by rewrite add0n add1n add2n add3n add4n diff4E.
- rewrite yE // rowN2_coeff // dot //.
  rewrite /index_iota /= !big_cons big_nil addr0 !addrA.
  by rewrite add0n add1n add2n diff2E.
- rewrite yE // rowN1_coeff // dot //.
  rewrite /index_iota /= !big_cons big_nil addr0 !addrA.
  by rewrite add0n add1n add2n add3n diff3E.
Qed.

(** A grid function whose forward difference is nonpositive lies above
    its later values and below its earlier ones. *)
Lemma fwd_le0_back (g : nat -> rat) (m : nat) :
  (forall k, (k < m)%N -> fwd g k <= 0) -> 0 <= g m ->
  forall k, (k <= m)%N -> 0 <= g k.
Proof.
move=> dec gm k lek; rewrite -(subKn lek); move: (m - k)%N (leq_subr k m) => d.
elim: d => [|d IH] led; first by rewrite subn0.
have ltd : (m - d.+1 < m)%N by nat_lia.
have := dec _ ltd; rewrite /fwd subr_le0.
have -> : (m - d.+1).+1 = (m - d)%N by nat_lia.
by apply: le_trans; apply: IH; apply: ltnW.
Qed.

Lemma fwd_ge0_back (g : nat -> rat) (m : nat) :
  (forall k, (k < m)%N -> 0 <= fwd g k) -> g m <= 0 ->
  forall k, (k <= m)%N -> g k <= 0.
Proof.
move=> inc gm k lek; rewrite -oppr_ge0.
apply: (@fwd_le0_back (fun j => - g j) m) => //; last by rewrite oppr_ge0.
by move=> j ltj; rewrite /fwd -opprB oppr_le0 opprK addrC; apply: inc.
Qed.

Lemma fwd_le0_fwd (g : nat -> rat) (m : nat) :
  (forall k, (k < m)%N -> fwd g k <= 0) -> g 0%N <= 0 ->
  forall k, (k <= m)%N -> g k <= 0.
Proof.
move=> dec g0; elim=> [|k IH] // ltk.
have := dec k ltk; rewrite /fwd subr_le0 => le_k.
by apply: le_trans le_k _; apply: IH; apply: ltnW.
Qed.

(** X8: over exact arithmetic, for [N >= 5] and a nonnegative body force,
    the computed deflection is nonpositive at every node and does not
    increase along the beam. *)
Theorem deflection_nonpositive (N : int) (b : rat) :
  5 <= N -> 0 <= b ->
  exists u,
    solve_beam N b = Ok u /\
    (forall k, (k < absz N)%N -> nth 0 u k <= 0) /\
    (forall k, (k.+1 < absz N)%N -> nth 0 u k.+1 <= nth 0 u k).
Proof.
move=> /ge5_nat[n -> n_ge5] b_ge0; rewrite absz_nat.
set M := to_mx n (expected_operator n).
set F := to_col n (expected_load n b).
exists (of_col (invmx M *m F)); split; first exact: solve_beam_nat.
have MU : M *m (invmx M *m F) = F by rewrite mulKVmx // operator_unit.
case: n n_ge5 @M @F MU => [//|n] n_ge5 M F MU.
pose x k := (invmx M *m F) (inord k) 0.
have [] := operator_apply (invmx M *m F) n_ge5; rewrite -/M MU -/x.
have FE k : (k < n.+1)%N -> F (inord k) 0 = nth 0 (expected_load n.+1 b) k.
  by move=> ltk; rewrite mxE inordK.
have lt0 : (0 < n.+1)%N by [].
have lt1 : (1 < n.+1)%N by nat_lia.
have lt2 : (n.+1 - 2 < n.+1)%N by nat_lia.
have lt3 : (n.+1 - 1 < n.+1)%N by nat_lia.
have out2 : (n.+1 - 2 < n.+1 - 2)%N = false by rewrite ltnn.
have out3 : (n.+1 - 1 < n.+1 - 2)%N = false by nat_lia.
rewrite !FE // !nth_mkseq //= out2 out3 !andbF => x0 /eqP.
rewrite eq_sym oppr_eq0 => /eqP d1_0 d4 d2_end d3_end.
have c_ge0 : 0 <= b * (1 / (n.+1%:Z - 1)%:Q) ^+ 4.
  by apply: mulr_ge0 => //; rewrite -[4%N]/(2 * 2)%N exprM sqr_ge0.
have d3_ge0 k : (k <= n.+1 - 4)%N -> 0 <= fwd (fwd (fwd x)) k.
  apply: fwd_le0_back; last by rewrite -d3_end.
  move=> j ltj; have ltj4 : (j + 4 < n.+1)%N by nat_lia.
  have ltj2 : (j.+2 < n.+1)%N by nat_lia.
  have int_j : (2 <= j.+2 < n.+1 - 2)%N by apply/andP; split; nat_lia.
  by rewrite -d4 // FE // nth_mkseq // int_j mulNr oppr_le0.
have d2_le0 k : (k <= n.+1 - 3)%N -> fwd (fwd x) k <= 0.
  apply: fwd_ge0_back; last by rewrite -d2_end.
  by move=> j ltj; apply: d3_ge0; nat_lia.
have d1_le0 k : (k <= n.+1 - 2)%N -> fwd x k <= 0.
  apply: fwd_le0_fwd; last by rewrite d1_0.
  by move=> j ltj; apply: d2_le0; nat_lia.
have x_le0 k : (k <= n.+1 - 1)%N -> x k <= 0.
  apply: fwd_le0_fwd; last by rewrite /x -x0.
  by move=> j ltj; apply: d1_le0; nat_lia.
split=> k ltk.
  by rewrite nth_of_col //; apply: x_le0; nat_lia.
have ltk' : (k < n.+1)%N by exact: ltnW.
rewrite !nth_of_col // -subr_le0.
by apply: (d1_le0 k); nat_lia.
Qed.

Lemma deflection_nonpositive_witness :
  exists u, solve_beam 5 1 = Ok u /\ nth 0 u 4 <= nth 0 u 3 /\ nth 0 u 4 <= 0.
Proof.
have [u [slv [neg decr]]] := @deflection_nonpositive 5 1 isT isT.
exists u; split; first exact: slv.
by split; [exact: (decr 3%N isT)|exact: (neg 4%N isT)].
Defined.

(** A square matrix with a trivial kernel is invertible. *)
Lemma unit_of_kernel (n : nat) (M : 'M[rat]_n) :
  (forall u : 'cV[rat]_n, M *m u = 0 -> u = 0) -> M \in unitmx.
Proof.
move=> ker0.
rewrite -unitmx_tr -row_free_unit -kermx_eq0; apply/eqP/row_matrixP => i.
rewrite row0; set v := row i _.
have vM : v *m M^T = 0 by rewrite -row_mul mulmx_ker row0.
have Mv : M *m v^T = 0.
  by apply: trmx_inj; rewrite trmx_mul trmxK vM trmx0.
by apply: trmx_inj; rewrite (ker0 _ Mv) trmx0.
Qed.

Lemma system4_unit : to_mx 4 system4.1 \in unitmx.
Proof.
apply: unit_of_kernel => u Mu0.
have row i : \sum_(j < 4) to_mx 4 system4.1 i j * u j 0 = 0.
  by have := congr1 (fun y : 'cV_4 => y i 0) Mu0; rewrite !mxE.
pose i0 : 'I_4 := ord0.
pose i1 : 'I_4 := lift ord0 ord0.
pose i2 : 'I_4 := lift ord0 (lift ord0 ord0).
pose i3 : 'I_4 := lift ord0 (lift ord0 (lift ord0 ord0)).
have := row i0; rewrite !big_ord_recl big_ord0 !mxE /entry /=.
rewrite !mul0r !addr0 mul1r => u0.
have := row i1; rewrite !big_ord_recl big_ord0 !mxE /entry /=.
rewrite !mul0r !addr0 mul1r u0 add0r mulN1r => /eqP.
rewrite oppr_eq0 => /eqP u1.
have := row i2; rewrite !big_ord_recl big_ord0 !mxE /entry /=.
rewrite u1 mulr0 mul0r !add0r addr0 mul1r addrC => /eqP.
rewrite addr_eq0 mulNr opprK => /eqP u3.
have := row i3; rewrite !big_ord_recl big_ord0 !mxE /entry /=.
rewrite u0 u1 u3 !mulr0 !add0r addr0 mul1r -mulrDl => /eqP.
rewrite mulf_eq0 => /orP[|/eqP u2]; first by vm_compute.
apply/matrixP => i j; rewrite (ord1 j) [RHS]mxE.
case: i => [[|[|[|[|i]]]] lti] //.
- by rewrite -[RHS]u0; congr (u _ _); apply: val_inj.
- by rewrite -[RHS]u1; congr (u _ _); apply: val_inj.
- by rewrite -[RHS]u2; congr (u _ _); apply: val_inj.
- have -> : Ordinal lti = i3 by apply: val_inj.
  by rewrite u3 u2 mulr0.
Qed.

(** X9: with [N = 4], below the size the discretisation needs, the
    notebook still runs through: the system has no interior equation, its
    load is zero, and over exact arithmetic the solve returns the zero
    deflection whatever the body force. *)
Theorem four_nodes_zero_deflection (b : rat) :
  solve_beam 4 b = Ok [:: 0; 0; 0; 0].
Proof.
have -> : solve_beam 4 b = linalg_solve system4.1 system4.2 by [].
rewrite /linalg_solve /= system4_unit.
have -> : to_col 4 [:: 0; 0; 0; 0] = 0.
  apply/matrixP => i j; rewrite !mxE.
  by case: i => [[|[|[|[|i]]]] lti].
rewrite mulmx0; congr Ok; apply: (@eq_from_nth _ 0).
  by rewrite size_of_col.
move=> i; rewrite size_of_col => lti.
by rewrite nth_of_col // mxE; case: i lti => [|[|[|[|i]]]].
Qed.

(** ** The membrane notebook *)

Lemma boundary_point (eps x0 x1 : rat) :
  boundary eps [:: x0; x1] =
  Ok [|| x0 < eps, 1 - eps < x0, x1 < eps | 1 - eps < x1].
Proof.
rewrite /boundary /Np.getitem /=.
by case: (x0 < eps); case: (1 - eps < x0); case: (x1 < eps).
Qed.

(** X10: for a positive [DOLFIN_EPS], [boundary] marks every point that
    has a coordinate equal to 0 or to 1, and the points it leaves unmarked
    are exactly those with both coordinates in [[eps, 1 - eps]]. *)
Theorem boundary_marks_unit_square (eps x0 x1 : rat) :
  0 < eps ->
  exists v,
    boundary eps [:: x0; x1] = Ok v /\
    (x0 \in [:: 0; 1] \/ x1 \in [:: 0; 1] -> v) /\
    v = ~~ ((eps <= x0 <= 1 - eps) && (eps <= x1 <= 1 - eps)).
Proof.
move=> eps_gt0; eexists; split; first exact: boundary_point.
have lt1 : 1 - eps < 1 by rewrite ltrBlDr ltrDl.
split; last by rewrite !negb_and -!ltNge !orbA.
by case; rewrite !inE => /orP[] /eqP ->; rewrite ?eps_gt0 ?lt1 ?orbT.
Qed.

Lemma boundary_marks_unit_square_witness :
  boundary (1 / 1000) [:: 0; 1 / 2] = Ok true.
Proof.
have [v [-> [marks _]]] := @boundary_marks_unit_square (1 / 1000) 0 (1 / 2) isT.
by rewrite marks //; left.
Defined.

(** X11: [boundary] does not distinguish the two coordinates, and it is
    invariant under the reflection [x -> 1 - x] of the unit square. *)
Theorem boundary_symmetric (eps x0 x1 : rat) :
  boundary eps [:: x1; x0] = boundary eps [:: x0; x1] /\
  boundary eps [:: 1 - x0; x1] = boundary eps [:: x0; x1].
Proof.
rewrite !boundary_point; split; congr Ok.
  by rewrite !orbA orbC !orbA orbC !orbA.
have -> : (1 - x0 < eps) = (1 - eps < x0) by rewrite !ltrBlDr addrC.
have -> : (1 - eps < 1 - x0) = (x0 < eps) by rewrite ltrD2l ltrN2.
by rewrite orbCA.
Qed.

(** X12: on a point with fewer than two coordinates, Python's
    short-circuit [or] answers [True] when the first coordinate alone
    decides, and the read of the second coordinate raises [IndexError]
    otherwise; the empty point raises at once. *)
Theorem boundary_short_point (eps x0 : rat) :
  boundary eps [::] = Raise IndexError /\
  boundary eps [:: x0] =
    if (x0 < eps) || (1 - eps < x0) then Ok true else Raise IndexError.
Proof.
split=> //; rewrite /boundary /Np.getitem /=.
by case: (x0 < eps); case: (1 - eps < x0).
Qed.

(** ** The Cahn-Hilliard notebook *)

Lemma setitem_pair0 (v0 v1 c : rat) :
  Np.setitem [:: v0; v1] 0 c = Ok [:: c; v1].
Proof. by []. Qed.

Lemma setitem_pair1 (v0 v1 c : rat) :
  Np.setitem [:: v0; v1] 1 c = Ok [:: v0; c].
Proof. by []. Qed.

Lemma setitem_single0 (v0 c : rat) : Np.setitem [:: v0] 0 c = Ok [:: c].
Proof. by []. Qed.

Lemma setitem_single1 (v0 c : rat) : Np.setitem [:: v0] 1 c = Raise IndexError.
Proof. by []. Qed.

Lemma setitem_nil (i : int) (c : rat) : Np.setitem [::] i c = Raise IndexError.
Proof.
rewrite /Np.setitem /Np.index_of /= addr0.
by case: (i < 0); rewrite // andbC; case: ltgtP.
Qed.

(** X13: for a draw [0 <= r < 1] and an output array of the size that
    [value_shape] announces, [eval] stores a concentration in the interval
    [(0.79, 0.81]] and a zero chemical potential. *)
Theorem initial_condition_range (r : rat) (values : Np.vector) :
  0 <= r < 1 -> size values = head 0%N InitialConditions_value_shape ->
  exists c,
    InitialConditions_eval r values = Ok [:: c; 0] /\
    79 / 100 < c <= 81 / 100.
Proof.
move=> /andP[r_ge0 r_lt1] sz.
have [v0 [v1 ->]] : exists v0 v1, values = [:: v0; v1].
  by case: values sz => [|v0 [|v1 [|v2 values]]] // _; exists v0, v1.
exists (8 / 10 + 2 / 100 * (5 / 10 - r)); split.
  rewrite /InitialConditions_eval setitem_pair0 bind_ok setitem_pair1.
  reflexivity.
have pos : 0 < 2 / 100 :> rat by rewrite divr_gt0 ?ltr0n.
have -> : 79 / 100 = 8 / 10 + 2 / 100 * (5 / 10 - 1) :> rat.
  by apply/eqP; vm_compute.
have -> : 81 / 100 = 8 / 10 + 2 / 100 * (5 / 10 - 0) :> rat.
  by apply/eqP; vm_compute.
rewrite ltrD2l lerD2l (ltr_pM2l pos) (ler_pM2l pos) ltrD2l lerD2l.
by rewrite ltrN2 lerN2 r_ge0 r_lt1.
Qed.

Lemma initial_condition_range_witness :
  exists c, InitialConditions_eval 0 [:: 0; 0] = Ok [:: c; 0] /\
            79 / 100 < c <= 81 / 100.
Proof.
have r01 : 0 <= (0 : rat) < 1 by rewrite lexx ltr01.
exact: (@initial_condition_range 0 [:: 0; 0] r01 erefl).
Defined.

(** X14: an output array shorter than [value_shape] makes [eval] fail with
    [IndexError]: at the first write when it is empty, at the second when
    it has one entry. *)
Theorem initial_condition_short (r : rat) (values : Np.vector) :
  (size values < head 0%N InitialConditions_value_shape)%N ->
  InitialConditions_eval r values = Raise IndexError.
Proof.
case: values => [_|v0 [_|v1 values lt2]]; rewrite /InitialConditions_eval.
- by rewrite setitem_nil.
- by rewrite setitem_single0 bind_ok setitem_single1.
- by move: lt2.
Qed.

Lemma initial_condition_short_witness :
  InitialConditions_eval 0 [:: 0] = Raise IndexError.
Proof. exact: (@initial_condition_short 0 [:: 0] isT). Defined.

(** X15: the free energy is a double well: it is nonnegative, it vanishes
    exactly at the concentrations 0 and 1, and it is symmetric under
    [c -> 1 - c]. *)
Theorem free_energy_double_well (c : rat) :
  0 <= free_energy c /\
  (free_energy c == 0) = (c == 0) || (c == 1) /\
  free_energy (1 - c) = free_energy c.
Proof.
have K_ne0 : (100 : rat) != 0 by rewrite pnatr_eq0.
have K_ge0 : 0 <= (100 : rat) by exact: ler0n.
rewrite /free_energy; move: (100 : rat) K_ne0 K_ge0 => K K_ne0 K_ge0.
split.
  apply: mulr_ge0; last exact: sqr_ge0.
  by apply: mulr_ge0; last exact: sqr_ge0.
split.
  rewrite mulf_eq0 [K * _ == 0]mulf_eq0 !sqrf_eq0 (negbTE K_ne0) subr_eq0.
  by rewrite [1 == c]eq_sym.
have -> : 1 - (1 - c) = c by rewrite opprB addrCA subrr addr0.
by rewrite -mulrA [_ ^+ 2 * _]mulrC mulrA.
Qed.

Lemma u_exact_bracket_gt0 (x : rat) : 0 < 1 / 4 - x / 6 + x ^+ 2 / 24.
Proof.
have -> : 4^-1 = (1 + 1 + (1 + 1) + (1 + 1)) * 24^-1 :> rat.
  by apply/eqP; vm_compute.
have -> : 6^-1 = (1 + 1 + (1 + 1)) * 24^-1 :> rat.
  by apply/eqP; vm_compute.
rewrite (abs_bracket rat_ring_theory x 24^-1).
apply: mulr_gt0; last by rewrite invr_gt0 ltr0n.
apply: ltr_wpDl; last exact: addr_gt0.
by rewrite -expr2 sqr_ge0.
Qed.

(** X16: for [N >= 5] and a nonzero body force, the analytical solution
    sampled on the grid does not satisfy row 1 of the assembled system:
    the one-sided difference that encodes the zero slope at the clamped
    end leaves the residual [alpha*dx^2*(1/4 - dx/6 + dx^2/24)], so the
    computed deflection is not the sampled analytical one. *)
Theorem analytic_misses_row1 (N : int) (b : rat) :
  5 <= N -> b != 0 ->
  exists A f x dx,
    [/\ assemble N b = Ok (A, f), plot_grid N = Ok x, spacing N = Ok dx,
        \sum_(0 <= j < absz N) entry A 1 j * u_exact b (nth 0 x j) =
          b * dx ^+ 2 * (1 / 4 - dx / 6 + dx ^+ 2 / 24) &
        \sum_(0 <= j < absz N) entry A 1 j * u_exact b (nth 0 x j)
          != nth 0 f 1].
Proof.
move=> /ge5_nat[n -> n_ge5] b_ne0; rewrite absz_nat.
have lt1 : (1 < n)%N by nat_lia.
have lt0 : (0 < n)%N by nat_lia.
have le2 : (0 + 2 <= n)%N by nat_lia.
pose h : rat := 1 / (n%:Z - 1)%:Q.
pose x := mkseq (fun k => k%:R / (n%:Z - 1)%:Q) n.
exists (expected_operator n), (expected_load n b), x, h.
have h_ne0 : h != 0.
  have le1 : (1 <= n)%N by exact: ltnW.
  by rewrite /h mul1r invr_eq0 int1 subzn // -pmulrn pnatr_eq0 -lt0n subn_gt0.
have sumE :
    \sum_(0 <= j < n) entry (expected_operator n) 1 j * u_exact b (nth 0 x j)
    = b * h ^+ 2 * (1 / 4 - h / 6 + h ^+ 2 / 24).
  have -> : \sum_(0 <= j < n)
              entry (expected_operator n) 1 j * u_exact b (nth 0 x j) =
            \sum_(0 <= j < n) window 0 [:: 1; - 1] j * u_exact b (j%:R * h).
    apply: eq_big_nat => j /andP[_ ltj].
    by rewrite entry_mkmat // nth_mkseq // /h mul1r.
  rewrite (@window_dot (fun j => u_exact b (j%:R * h))) //.
  rewrite /index_iota /= !big_cons big_nil addr0 add0n add1n mul0r mul1r.
  rewrite u_exact_at0.
  by rewrite mulr0 add0r mulN1r /u_exact !mulNr opprK !mul1r.
split=> //; first exact: assemble_nat.
- exact: linspace01_nat.
- exact: spacing_nat.
rewrite sumE nth_mkseq //=.
apply: mulf_neq0; last by rewrite gt_eqF // u_exact_bracket_gt0.
by apply: mulf_neq0 => //; exact: expf_neq0.
Qed.

Lemma analytic_misses_row1_witness :
  exists A f x,
    [/\ assemble 5 1 = Ok (A, f), plot_grid 5 = Ok x &
        \sum_(0 <= j < 5) entry A 1 j * u_exact 1 (nth 0 x j) != nth 0 f 1].
Proof.
have b_ne0 : (1 : rat) != 0 by exact: oner_neq0.
have [A [f [x [dx [asm grid _ _ miss]]]]] := @analytic_misses_row1 5 1 isT b_ne0.
by exists A, f, x; split; [exact: asm|exact: grid|exact: miss].
Defined.
